(** * Sweet Nothings: a flood-broadcast chat node

    A shallow embedding of [sweetnothings.go] (and of the earlier
    single-listener program kept next to it) together with the properties
    of its dedup cache, peer registry, broadcaster, dialer and serve loop.

    Goroutines are modelled as tasks whose control state is explicit; one
    step of a task runs from one blocking point of the source to the next
    and is atomic.  Everything the operating system answers (host name
    resolution, accept, connect, decode and encode results, the clock,
    lines typed on standard input) is an input of the step. *)

From Stdlib Require Import Ascii.
From stdpp Require Import base option list strings pretty gmap fin_maps.

Local Open Scope string_scope.
Local Open Scope list_scope.
Local Open Scope nat_scope.

(* ===================================================================== *)
(** ** Results of fallible code *)
(* ===================================================================== *)

(** [Fatal] is [log.Fatal] (the process exits), [Panic] a Go run-time
    panic that nothing recovers (the process exits as well). *)
Inductive Res (A : Type) : Type :=
  | Ok (a : A)
  | Fatal (msg : string)
  | Panic (msg : string).
Arguments Ok {A} a.
Arguments Fatal {A} msg.
Arguments Panic {A} msg.

(* ===================================================================== *)
(** ** Console helpers (sweetnothings.go:16-41) *)
(* ===================================================================== *)

(** The byte 27 ([\033]), least significant bit first. *)
Definition esc : string :=
  String (Ascii true true false true true false false false) "".

Definition colors : gmap string string :=
  list_to_map
    [ ("header", esc +:+ "[95m");
      ("blue",   esc +:+ "[94m");
      ("green",  esc +:+ "[92m");
      ("yellow", esc +:+ "[93m");
      ("red",    esc +:+ "[91m");
      ("bold",   esc +:+ "[1m");
      ("end",    esc +:+ "[0m") ].

(** Indexing a Go map at a missing key gives the zero value. *)
Definition colorOf (k : string) : string := default "" (colors !! k).

Definition wrapColor (s color : string) : string :=
  colorOf color +:+ s +:+ colorOf "end".

Definition bold (s : string) : string := wrapColor s "bold".

(** What [statusLn s] prints. *)
Definition statusLine (s : string) : string :=
  wrapColor ("[" +:+ s +:+ "]") "blue".

(* ===================================================================== *)
(** ** The message record (sweetnothings.go:46-55) *)
(* ===================================================================== *)

(** The fields of [time.Time] the program reads. *)
Record Time : Type := mkTime {
  Year : N; Month : N; Day : N;
  Hour : N; Minute : N; Second : N; Nanosecond : N
}.

(** The zero [time.Time]: January 1, year 1, 00:00:00 UTC. *)
Definition zeroTime : Time := mkTime 1 1 1 0 0 0 0.

Record SweetNothing : Type := mkSweetNothing {
  ID : string;
  Addr : string;
  Body : string;
  Timestamp : Time
}.

(** [var whisper SweetNothing] *)
Definition zeroSweetNothing : SweetNothing := mkSweetNothing "" "" "" zeroTime.

Global Instance Time_eq_dec : EqDecision Time.
Proof. solve_decision. Defined.
Global Instance SweetNothing_eq_dec : EqDecision SweetNothing.
Proof. solve_decision. Defined.

(** [uniqueId] with the clock's answer as argument: the seven fields
    printed with [%d] one after the other. *)
Definition uniqueId (now : Time) : string :=
  pretty (Year now) +:+ pretty (Month now) +:+ pretty (Day now) +:+
  pretty (Hour now) +:+ pretty (Minute now) +:+ pretty (Second now) +:+
  pretty (Nanosecond now).

(* ===================================================================== *)
(** ** Channels *)
(* ===================================================================== *)

(** The receive end of a delivery channel is handed to exactly one caller
    ([Add] returns it, [dial] ranges over it), so a channel has at most one
    receiver: it is not receiving, parked in a receive, or it has just been
    handed a value by a sender and has not run yet. *)
Inductive RecvState : Type :=
  | Idle
  | Parked
  | Handed (s : SweetNothing).

Record Chan : Type := mkChan {
  cap : nat;
  buf : list SweetNothing;
  recv : RecvState
}.

(** [make(chan SweetNothing)]: no capacity argument. *)
Definition makeChan : Chan := mkChan 0 [] Idle.

(** [select { case ch <- s: default: }]: the send case is taken when a
    receiver is parked (the value goes to it directly) or when the buffer
    has room; otherwise the default case runs and [None] is returned. *)
Definition trySend (s : SweetNothing) (c : Chan) : option Chan :=
  match recv c with
  | Parked => Some (mkChan (cap c) (buf c) (Handed s))
  | _ =>
      if decide (length (buf c) < cap c)
      then Some (mkChan (cap c) (buf c ++ [s]) (recv c))
      else None
  end.

(* ===================================================================== *)
(** ** The dedup cache (sweetnothings.go:123-134) *)
(* ===================================================================== *)

(** [SeenId] on the map [seenIds.m]; the mutex makes the body atomic. *)
Definition SeenId (id : string) (m : gmap string bool) : bool * gmap string bool :=
  let ok := default false (m !! id) in
  (ok, <[id := true]> m).

(** Successive calls, oldest first, with their answers. *)
Fixpoint SeenIds (ids : list string) (m : gmap string bool)
  : list bool * gmap string bool :=
  match ids with
  | [] => ([], m)
  | id :: rest =>
      let '(ok, m1) := SeenId id m in
      let '(oks, m2) := SeenIds rest m1 in
      (ok :: oks, m2)
  end.

(** Every marker stored in the cache is [true]. *)
Definition marked (m : gmap string bool) : Prop :=
  ∀ id b, m !! id = Some b → b = true.

(* ===================================================================== *)
(** ** The peer registry (sweetnothings.go:60-91) *)
(* ===================================================================== *)

(** A channel is named by its index in the list of all channels made so
    far ([heap]); [channels] maps an address to the send end. *)
Module Peers.

Record t : Type := mk {
  channels : gmap string nat;
  heap : list Chan
}.

Definition Add (addr : string) (p : t) : option nat * t :=
  match channels p !! addr with
  | Some _ => (None, p)
  | None =>
      let c := length (heap p) in
      (Some c, mk (<[addr := c]> (channels p)) (heap p ++ [makeChan]))
  end.

Definition Remove (addr : string) (p : t) : t :=
  mk (delete addr (channels p)) (heap p).

(** Go ranges over a map in an unspecified order; [map_to_list] fixes
    one.  The statements below that depend on the snapshot are made for
    any order. *)
Definition List (p : t) : list nat := (map_to_list (channels p)).*2.

(** Registry calls as a script, for statements about call sequences. *)
Inductive Call : Type :=
  | CallAdd (addr : string)
  | CallRemove (addr : string).

(** Runs a script; the handles returned by the [Add addr] calls are
    collected, oldest first. *)
Fixpoint handles (addr : string) (cs : list Call) (p : t)
  : list (option nat) * t :=
  match cs with
  | [] => ([], p)
  | CallAdd a :: rest =>
      let '(r, p1) := Add a p in
      let '(rs, p2) := handles addr rest p1 in
      (if decide (a = addr) then r :: rs else rs, p2)
  | CallRemove a :: rest => handles addr rest (Remove a p)
  end.

(** Every registered handle names a channel that was made. *)
Definition allocated (p : t) : Prop :=
  ∀ a c, channels p !! a = Some c → c < length (heap p).

End Peers.

(* ===================================================================== *)
(** ** The local address (sweetnothings.go:96-118) *)
(* ===================================================================== *)

(** What the machine answers: [os.Hostname()] and, for that name,
    [net.LookupHost]; [None] is a non-nil [err]. *)
Record Host : Type := mkHost {
  osHostname : option string;
  netLookupHost : option (list string)
}.

Module LocalInfo.

Record t : Type := mk {
  ip : string;
  ListenPort : string
}.

(** Pointer receiver: the resolved address is stored in the receiver,
    which is returned next to the result. *)
Definition IP (h : Host) (i : t) : Res (string * t) :=
  if decide (String.length (ip i) = 0) then
    match osHostname h with
    | None => Fatal "Unable to get hostname:"
    | Some _ =>
        match netLookupHost h with
        | None => Fatal "Unable to determine local ip:"
        | Some [] => Panic "index out of range"
        | Some (first :: _) => Ok (first, mk first (ListenPort i))
        end
    end
  else Ok (ip i, i).

(** Value receiver: [i] is a copy, so what [IP] stores is dropped when
    [Addr] returns, and every call resolves again. *)
Definition Addr (h : Host) (i : t) : Res string :=
  match IP h i with
  | Ok (a, _) => Ok (a +:+ ":" +:+ ListenPort i)
  | Fatal msg => Fatal msg
  | Panic msg => Panic msg
  end.

End LocalInfo.

(* ===================================================================== *)
(** ** The process *)
(* ===================================================================== *)

(** A [net.Conn] as far as the program looks at it. *)
Record Conn : Type := mkConn { RemoteAddr : string }.

(** One JSON object of the stream as [Decode] sees it: the fields it
    carries.  [Decode] stores a field of the destination only when the
    object has it. *)
Record WireObj : Type := mkWireObj {
  wID : option string;
  wAddr : option string;
  wBody : option string;
  wTimestamp : option Time
}.

Definition decodeInto (o : WireObj) (whisper : SweetNothing) : SweetNothing :=
  mkSweetNothing
    (default (ID whisper) (wID o))
    (default (Addr whisper) (wAddr o))
    (default (Body whisper) (wBody o))
    (default (Timestamp whisper) (wTimestamp o)).

(** What [enc.Encode(s)] writes: every field. *)
Definition encode (s : SweetNothing) : WireObj :=
  mkWireObj (Some (ID s)) (Some (Addr s)) (Some (Body s)) (Some (Timestamp s)).

(** What one call of [Decode] comes back with.  The loop makes a new
    decoder at every turn; which bytes of the stream each of them gets to
    see is the connection's business, the turn only sees the result. *)
Inductive DecodeResult : Type :=
  | Decoded (o : WireObj)
  | DecodeError.

Inductive AcceptResult : Type :=
  | AcceptOk (c : Conn)
  | AcceptErr (err : string).

(** Where a goroutine running [dial] stands. *)
Inductive DialPC : Type :=
  | DialEntry (addr : string)                       (* started, line 200 *)
  | DialConnecting (addr : string) (ch : nat)       (* in net.Dial, line 213 *)
  | DialRanging (addr : string) (ch : nat) (c : Conn)  (* in range ch, line 227 *)
  | DialEncoding (addr : string) (ch : nat) (c : Conn) (s : SweetNothing)
                                                    (* in enc.Encode, line 228 *)
  | DialReturned.

(** What wakes it up.  No statement of the program closes a channel, so
    [RangeEnd] is never produced by the process itself; it is there
    because [range] ends that way. *)
Inductive DialIn : Type :=
  | Scheduled                    (* the goroutine runs for the first time *)
  | ConnectOk (c : Conn)         (* net.Dial returned a connection *)
  | ConnectErr                   (* net.Dial returned an error *)
  | Received                     (* the receive in range ch got a value *)
  | RangeEnd                     (* range ch ended: the channel is closed *)
  | EncodeOk                     (* enc.Encode returned nil *)
  | EncodeErr (err : string).    (* enc.Encode returned an error *)

(** Where a goroutine running [serveIncoming] stands: in [dec.Decode] on
    its connection ([None] is the nil [net.Conn]), with the current value
    of its variable [whisper]. *)
Inductive ServePC : Type :=
  | Serving (c : option Conn) (whisper : SweetNothing)
  | ServeReturned.

(** What the process did, oldest first.  [Broadcast], [Sent] and [Dropped]
    record the calls and the select branches of [broadcast]. *)
Inductive Event : Type :=
  | Stdout (line : string)
  | Logged (line : string)
  | Broadcast (s : SweetNothing)
  | Sent (ch : nat) (s : SweetNothing)
  | Dropped (ch : nat) (s : SweetNothing)
  | Dialed (addr : string)
  | Wrote (c : Conn) (o : WireObj)
  | Closed (c : Conn).

Record Node : Type := mkNode {
  host : Host;
  localInfo : LocalInfo.t;
  peers : Peers.t;
  seenIds : gmap string bool;
  nicknames : gmap string string;
  dialers : list DialPC;
  servers : list ServePC;
  trace : list Event
}.

Definition set_peers (f : Peers.t → Peers.t) (n : Node) : Node :=
  mkNode (host n) (localInfo n) (f (peers n)) (seenIds n) (nicknames n)
         (dialers n) (servers n) (trace n).
Definition set_seenIds (f : gmap string bool → gmap string bool) (n : Node) : Node :=
  mkNode (host n) (localInfo n) (peers n) (f (seenIds n)) (nicknames n)
         (dialers n) (servers n) (trace n).
Definition set_nicknames (f : gmap string string → gmap string string) (n : Node) : Node :=
  mkNode (host n) (localInfo n) (peers n) (seenIds n) (f (nicknames n))
         (dialers n) (servers n) (trace n).
Definition set_dialers (f : list DialPC → list DialPC) (n : Node) : Node :=
  mkNode (host n) (localInfo n) (peers n) (seenIds n) (nicknames n)
         (f (dialers n)) (servers n) (trace n).
Definition set_servers (f : list ServePC → list ServePC) (n : Node) : Node :=
  mkNode (host n) (localInfo n) (peers n) (seenIds n) (nicknames n)
         (dialers n) (f (servers n)) (trace n).
Definition set_trace (f : list Event → list Event) (n : Node) : Node :=
  mkNode (host n) (localInfo n) (peers n) (seenIds n) (nicknames n)
         (dialers n) (servers n) (f (trace n)).

(** *** A state and error monad over the process state *)

Definition M (A : Type) : Type := Node → Res (A * Node).

Definition ret {A} (a : A) : M A := λ n, Ok (a, n).

Definition bind {A B} (m : M A) (k : A → M B) : M B := λ n,
  match m n with
  | Ok (a, n1) => k a n1
  | Fatal msg => Fatal msg
  | Panic msg => Panic msg
  end.

Notation "'let*' x := m 'in' k" := (bind m (λ x, k))
  (at level 10, x name, m at level 100, k at level 200, only parsing).
Notation "m >> k" := (bind m (λ _, k))
  (at level 70, right associativity, only parsing).

Definition logFatal {A} (msg : string) : M A := λ _, Fatal msg.
Definition panic {A} (msg : string) : M A := λ _, Panic msg.
Definition update (f : Node → Node) : M unit := λ n, Ok ((), f n).
Definition emit (e : Event) : M unit := update (set_trace (λ t, t ++ [e])).

Definition statusLn (s : string) : M unit := emit (Stdout (statusLine s)).

(** [go dial(addr)] and [go serveIncoming(con)]: a new task. *)
Definition goDial (addr : string) : M unit :=
  update (set_dialers (λ l, l ++ [DialEntry addr])).
Definition goServeIncoming (con : option Conn) : M unit :=
  update (set_servers (λ l, l ++ [Serving con zeroSweetNothing])).

(** [localInfo.Addr()] *)
Definition localAddr : M string := λ n,
  match LocalInfo.Addr (host n) (localInfo n) with
  | Ok a => Ok (a, n)
  | Fatal msg => Fatal msg
  | Panic msg => Panic msg
  end.

Definition peersAdd (addr : string) : M (option nat) := λ n,
  let '(ch, p) := Peers.Add addr (peers n) in
  Ok (ch, set_peers (λ _, p) n).

Definition peersRemove (addr : string) : M unit :=
  update (set_peers (Peers.Remove addr)).

Definition seenId (id : string) : M bool := λ n,
  let '(ok, m) := SeenId id (seenIds n) in
  Ok (ok, set_seenIds (λ _, m) n).

(** *** Nicknames (sweetnothings.go:136-155) *)

Definition nick (addr : string) : M string :=
  let* me := localAddr in
  λ n,
    let name :=
      if decide (addr = me) then "you"
      else match nicknames n !! addr with
           | Some n_ => n_
           | None => addr
           end in
    Ok ("[" +:+ name +:+ "]", n).

Definition setNick (addr nick : string) : M unit :=
  update (set_nicknames (<[addr := nick]>)) >>
  statusLn (addr +:+ " nicknamed " +:+ nick).

(** *** broadcast (sweetnothings.go:190-198) *)

(** The loop over a snapshot [l]: one select per handle. *)
Fixpoint broadcastTo (l : list nat) (whisper : SweetNothing) (h : list Chan)
  : list Chan * list Event :=
  match l with
  | [] => (h, [])
  | ch :: rest =>
      match h !! ch ≫= trySend whisper with
      | Some c =>
          let '(h1, evs) := broadcastTo rest whisper (<[ch := c]> h) in
          (h1, Sent ch whisper :: evs)
      | None =>
          let '(h1, evs) := broadcastTo rest whisper h in
          (h1, Dropped ch whisper :: evs)
      end
  end.

Definition broadcast (whisper : SweetNothing) : M unit := λ n,
  let l := Peers.List (peers n) in
  let '(h, evs) := broadcastTo l whisper (Peers.heap (peers n)) in
  Ok ((), set_trace (λ t, t ++ Broadcast whisper :: evs)
            (set_peers (λ p, Peers.mk (Peers.channels p) h) n)).

(** *** serveIncoming (sweetnothings.go:170-188) *)

(** One turn of the loop: [d] is what [dec.Decode(&whisper)] comes back
    with.  A decoder on the nil connection dereferences it. *)
Definition serveIncoming (pc : ServePC) (d : DecodeResult) : M ServePC :=
  match pc with
  | ServeReturned => ret ServeReturned
  | Serving None _ => panic "invalid memory address or nil pointer dereference"
  | Serving (Some c) whisper =>
      match d with
      | DecodeError =>
          emit (Closed c) >>
          statusLn ("Closed connection to " +:+ RemoteAddr c) >>
          ret ServeReturned
      | Decoded o =>
          let whisper := decodeInto o whisper in
          let* seen := seenId (ID whisper) in
          if seen : bool then ret (Serving (Some c) whisper)
          else
            let* label := nick (Addr whisper) in
            emit (Stdout (bold label +:+ " " +:+ Body whisper)) >>
            broadcast whisper >>
            goDial (Addr whisper) >>
            ret (Serving (Some c) whisper)
      end
  end.

(** *** dial (sweetnothings.go:200-234) *)

(** The receive at the head of [for s := range ch]: a buffered value is
    taken at once, otherwise the goroutine parks on the channel. *)
Definition rangeNext (addr : string) (ch : nat) (c : Conn) : M DialPC := λ n,
  let h := Peers.heap (peers n) in
  match h !! ch with
  | None => Ok (DialRanging addr ch c, n)
  | Some q =>
      match buf q with
      | s :: rest =>
          Ok (DialEncoding addr ch c s,
              set_peers (λ p, Peers.mk (Peers.channels p)
                                (<[ch := mkChan (cap q) rest (recv q)]> h)) n)
      | [] =>
          Ok (DialRanging addr ch c,
              set_peers (λ p, Peers.mk (Peers.channels p)
                                (<[ch := mkChan (cap q) [] Parked]> h)) n)
      end
  end.

(** The value a sender handed to the parked receiver, if any. *)
Definition takeHanded (ch : nat) : M (option SweetNothing) := λ n,
  let h := Peers.heap (peers n) in
  match h !! ch with
  | Some q =>
      match recv q with
      | Handed s =>
          Ok (Some s,
              set_peers (λ p, Peers.mk (Peers.channels p)
                                (<[ch := mkChan (cap q) (buf q) Idle]> h)) n)
      | _ => Ok (None, n)
      end
  | None => Ok (None, n)
  end.

(** The two deferred calls, in the order they run: the closure that
    closes the connection, then [peers.Remove(addr)]. *)
Definition dialDeferred (addr : string) (c : Conn) : M unit :=
  emit (Closed c) >>
  statusLn ("Closed connection to " +:+ RemoteAddr c) >>
  peersRemove addr.

(** One step of [dial]; an input that does not fit the control point
    leaves everything as it is. *)
Definition dial (pc : DialPC) (e : DialIn) : M DialPC :=
  match pc, e with
  | DialEntry addr, Scheduled =>
      let* me := localAddr in
      if decide (addr = me) then ret DialReturned
      else
        let* ch := peersAdd addr in
        match ch with
        | None => ret DialReturned
        | Some ch =>
            statusLn ("Dialing " +:+ addr) >>
            emit (Dialed addr) >>
            ret (DialConnecting addr ch)
        end
  | DialConnecting addr ch, ConnectErr =>
      emit (Logged ("[Error dialing " +:+ addr +:+ "]")) >>
      peersRemove addr >>
      ret DialReturned
  | DialConnecting addr ch, ConnectOk c =>
      statusLn ("Connected to " +:+ addr) >>
      rangeNext addr ch c
  | DialRanging addr ch c, Received =>
      let* s := takeHanded ch in
      match s with
      | Some s => ret (DialEncoding addr ch c s)
      | None => ret pc
      end
  | DialRanging addr ch c, RangeEnd =>
      dialDeferred addr c >>
      ret DialReturned
  | DialEncoding addr ch c s, EncodeOk =>
      emit (Wrote c (encode s)) >>
      rangeNext addr ch c
  | DialEncoding addr ch c s, EncodeErr err =>
      emit (Logged ("[Error encoding message] " +:+ err)) >>
      dialDeferred addr c >>
      ret DialReturned
  | _, _ => ret pc
  end.

(** *** Commands and the input scanner (sweetnothings.go:236-266) *)

(** [strings.ToLower], [strings.TrimSpace] and [strings.Split(_, " ")]
    on a line of ASCII bytes.  There [ToLower] changes the bytes [A]-[Z]
    only and [TrimSpace] strips the six ASCII white-space bytes (space
    and 9 to 13); [Split] cuts at every single space and is byte-wise on
    any line.  On a line with a byte above 127 Go's [ToLower] and
    [TrimSpace] work on runes (U+0130 and U+212A are lowered to ASCII
    letters, U+0085 and U+00A0 are white space), which these definitions
    do not follow: what is proved of the parsing of a command is proved
    for the lines that satisfy [asciiOnly]. *)
Definition lowerByte (c : ascii) : ascii :=
  let k := nat_of_ascii c in
  if decide (65 ≤ k ≤ 90)%nat then ascii_of_nat (k + 32) else c.

Fixpoint ToLower (s : string) : string :=
  match s with
  | EmptyString => EmptyString
  | String c rest => String (lowerByte c) (ToLower rest)
  end.

Definition isSpace (c : ascii) : bool :=
  let k := nat_of_ascii c in
  bool_decide (k = 32 ∨ (9 ≤ k ≤ 13)%nat).

Fixpoint trimLeft (s : string) : string :=
  match s with
  | EmptyString => EmptyString
  | String c rest => if isSpace c then trimLeft rest else s
  end.

Definition TrimSpace (s : string) : string :=
  String.rev (trimLeft (String.rev (trimLeft s))).

(** The first field and the fields after it. *)
Fixpoint splitFields (s : string) : string * list string :=
  match s with
  | EmptyString => (EmptyString, [])
  | String c rest =>
      let '(f, fs) := splitFields rest in
      if decide (c = " "%char) then (EmptyString, f :: fs)
      else (String c f, fs)
  end.

Definition Split (s : string) : list string :=
  let '(f, fs) := splitFields s in f :: fs.

(** A line without a byte above 127. *)
Fixpoint asciiOnly (s : string) : bool :=
  match s with
  | EmptyString => true
  | String c rest => bool_decide (nat_of_ascii c < 128) && asciiOnly rest
  end.

Definition handleCommand (c : string) : M unit :=
  let parts := Split (ToLower (TrimSpace c)) in
  match parts !! 0 with
  | None => panic "index out of range"
  | Some p0 =>
      if decide (p0 = "/dial") then
        match parts !! 1 with
        | None => panic "index out of range"
        | Some p1 => goDial p1
        end
      else if decide (p0 = "/setnick") then
        match parts with
        | [_; p1; p2] => setNick p1 p2
        | _ => ret ()
        end
      else ret ()
  end.

(** One turn of the scanner loop: [text] is the line read, [idNow] and
    [stamp] the clock's answers to [uniqueId] and to [time.Now().UTC()]. *)
Definition startInputScanner (text : string) (idNow stamp : Time) : M unit :=
  if decide (String.length text = 0) then ret ()
  else if String.prefix "/" text then handleCommand text
  else
    let* me := localAddr in
    let whisper := mkSweetNothing (uniqueId idNow) me text stamp in
    broadcast whisper.

(** *** main (sweetnothings.go:268-299) *)

(** One turn of the accept loop.  After an error [con] is nil, and
    [go serveIncoming(con)] is reached all the same. *)
Definition acceptLoop (r : AcceptResult) : M unit :=
  match r with
  | AcceptErr err =>
      emit (Logged ("< Error on accept: " +:+ err)) >>
      goServeIncoming None
  | AcceptOk con => goServeIncoming (Some con)
  end.

(** The goroutine that the accept loop has just started needs no input to
    get to its first [Decode].  On a connection it waits there for bytes:
    its next step is a [Wire] input.  On the nil connection of a failed
    [Accept] the decoder dereferences nil, and the panic, which nothing
    recovers, ends the process. *)
Definition firstDecode (r : AcceptResult) : M unit :=
  match r with
  | AcceptOk _ => ret ()
  | AcceptErr _ => panic "invalid memory address or nil pointer dereference"
  end.

(** The goroutine of [main] up to its accept loop: [port] is the flag,
    [listen] what [net.Listen] answers (the listener's address or an
    error).  [go startInputScanner()] comes before [net.Listen]: the
    lines the scanner handles are the [Typed] inputs of [step] below,
    and here they all come after the two status lines, also a line that
    the scanner would handle while [main] is still on its way to the
    loop.  Such a line leaves the registry, the cache and the goroutines
    as the same line does after the status lines; what is printed comes
    in another order. *)
Definition main (h : Host) (port : string) (listen : string + string) : Res Node :=
  if decide (String.length port < 4) then
    Fatal ("Invalid listen port (" +:+ port +:+ ")")
  else
    let n := mkNode h (LocalInfo.mk "" port) (Peers.mk ∅ []) ∅ ∅ [] [] [] in
    match listen with
    | inr err => Fatal err
    | inl laddr =>
        match
          (emit (Stdout (bold "--- Sweet Nothings ---")) >>
           let* me := localAddr in
           statusLn ("Local address: " +:+ me) >>
           statusLn ("Listening on " +:+ laddr)) n
        with
        | Ok (_, n1) => Ok n1
        | Fatal msg => Fatal msg
        | Panic msg => Panic msg
        end
    end.

(** *** The process as a whole *)

(** What can happen next: a line is read, [Accept] returns (and the
    goroutine started for its result runs up to its first [Decode]), the
    [k]-th serving goroutine gets a decode result, the [k]-th dialing
    goroutine is woken. *)
Inductive Input : Type :=
  | Typed (text : string) (idNow stamp : Time)
  | Accepted (r : AcceptResult)
  | Wire (k : nat) (d : DecodeResult)
  | Dial (k : nat) (e : DialIn).

Definition step (i : Input) : M unit :=
  match i with
  | Typed text idNow stamp => startInputScanner text idNow stamp
  | Accepted r => acceptLoop r >> firstDecode r
  | Wire k d => λ n,
      match servers n !! k with
      | None => Ok ((), n)
      | Some pc =>
          (let* pc1 := serveIncoming pc d in
           update (set_servers (<[k := pc1]>))) n
      end
  | Dial k e => λ n,
      match dialers n !! k with
      | None => Ok ((), n)
      | Some pc =>
          (let* pc1 := dial pc e in
           update (set_dialers (<[k := pc1]>))) n
      end
  end.

Fixpoint run (ins : list Input) (n : Node) : Res Node :=
  match ins with
  | [] => Ok n
  | i :: rest =>
      match step i n with
      | Ok (_, n1) => run rest n1
      | Fatal msg => Fatal msg
      | Panic msg => Panic msg
      end
  end.

(** The states the process goes through after start-up. *)
Definition reachable (h : Host) (n : Node) : Prop :=
  ∃ port listen n0 ins, main h port listen = Ok n0 ∧ run ins n0 = Ok n.

(** *** Counting in traces *)

Definition isBroadcastOf (id : string) (e : Event) : bool :=
  match e with
  | Broadcast s => bool_decide (ID s = id)
  | _ => false
  end.

Definition broadcasts (id : string) (t : list Event) : nat :=
  length (filter (λ e, isBroadcastOf id e = true) t).

Definition isOrigination (id : string) (i : Input) : bool :=
  match i with
  | Typed text idNow _ =>
      bool_decide (String.length text ≠ 0) && negb (String.prefix "/" text)
      && bool_decide (uniqueId idNow = id)
  | _ => false
  end.

Definition originations (id : string) (ins : list Input) : nat :=
  length (filter (λ i, isOrigination id i = true) ins).

(* ===================================================================== *)
(** ** The earlier listener ([startListener] of the repository's second,
    smaller program, lines 83-101) *)
(* ===================================================================== *)

Module Listener.

(** One turn of the loop of [startListener]: an accept error ends the
    process; otherwise one record is decoded from the connection into a
    fresh variable (the decode error is not looked at; a failed decode
    is taken to store nothing) and is sent on
    the channel that [main] prints from.  [sent] collects those
    records. *)
Definition startListener (r : AcceptResult) (d : DecodeResult)
    (sent : list SweetNothing) : Res (list SweetNothing) :=
  match r with
  | AcceptErr err => Fatal ("Error on accept: " +:+ err)
  | AcceptOk _ =>
      let received :=
        match d with
        | Decoded o => decodeInto o zeroSweetNothing
        | DecodeError => zeroSweetNothing
        end in
      Ok (sent ++ [received])
  end.

End Listener.

(* ===================================================================== *)
(** ** Notions used in the statements *)
(* ===================================================================== *)

(** A channel that a send would not block on. *)
Definition ready (c : Chan) : Prop :=
  recv c = Parked ∨ length (buf c) < cap c.

Global Instance RecvState_eq_dec : EqDecision RecvState.
Proof. solve_decision. Defined.

Global Instance ready_dec c : Decision (ready c).
Proof. unfold ready. apply _. Defined.

(** The outcome of one select of [broadcast] on handle [ch] in heap [h]. *)
Definition attempt (whisper : SweetNothing) (h : list Chan) (ch : nat) : Event :=
  match h !! ch ≫= trySend whisper with
  | Some _ => Sent ch whisper
  | None => Dropped ch whisper
  end.

(** The heap entry of [ch] after that select. *)
Definition afterAttempt (whisper : SweetNothing) (h : list Chan) (ch : nat)
  : option Chan :=
  match h !! ch ≫= trySend whisper with
  | Some c => Some c
  | None => h !! ch
  end.

(** The dialing goroutine that owns the registry entry of an address, and
    the channel it was given. *)
Definition owns (pc : DialPC) : option (string * nat) :=
  match pc with
  | DialConnecting addr ch => Some (addr, ch)
  | DialRanging addr ch _ => Some (addr, ch)
  | DialEncoding addr ch _ _ => Some (addr, ch)
  | DialEntry _ | DialReturned => None
  end.

(** How the receive side of a goroutine's channel stands at each of its
    control points: only while it is in [range ch] can it be parked or
    have been handed a value. *)
Definition recvFits (pc : DialPC) (q : Chan) : Prop :=
  match pc with
  | DialRanging _ _ _ => recv q ≠ Idle
  | _ => recv q = Idle
  end.

(** The registry and the dialing goroutines agree: every channel is
    unbuffered and empty, every entry has an owner, every owner has its
    entry, and no channel has two owners. *)
Record RegistryInv (p : Peers.t) (ds : list DialPC) : Prop := mkRegistryInv {
  inv_chan : ∀ ch q, Peers.heap p !! ch = Some q → cap q = 0 ∧ buf q = [];
  inv_reg : ∀ addr ch, Peers.channels p !! addr = Some ch →
    ∃ k pc, ds !! k = Some pc ∧ owns pc = Some (addr, ch);
  inv_own : ∀ k pc addr ch, ds !! k = Some pc → owns pc = Some (addr, ch) →
    Peers.channels p !! addr = Some ch ∧
    ∃ q, Peers.heap p !! ch = Some q ∧ recvFits pc q;
  inv_uniq : ∀ k k' pc pc' a a' ch,
    ds !! k = Some pc → ds !! k' = Some pc' →
    owns pc = Some (a, ch) → owns pc' = Some (a', ch) → k = k'
}.

Record invariant (n : Node) : Prop := mkInvariant {
  inv_registry : RegistryInv (peers n) (dialers n);
  inv_marked : marked (seenIds n);
  inv_local : ∃ me, LocalInfo.Addr (host n) (localInfo n) = Ok me ∧
                    Peers.channels (peers n) !! me = None
}.

(** The broadcasts of [id] so far, plus one while the id is not in the
    cache: what only an origination can make grow. *)
Definition budget (id : string) (n : Node) : nat :=
  broadcasts id (trace n)
  + match seenIds n !! id with Some _ => 0 | None => 1 end.

(* ===================================================================== *)
(** ** Sample inputs *)
(* ===================================================================== *)

(** Node A of the two-node scenario, [10.0.0.1:9000], and node B,
    [10.0.0.2:9000]. *)
Definition hostA : Host := mkHost (Some "alpha") (Some ["10.0.0.1"]).
Definition hostB : Host := mkHost (Some "beta") (Some ["10.0.0.2"]).

Definition noon : Time := mkTime 2014 3 9 12 0 0 500.

Definition m1 : SweetNothing := mkSweetNothing "m1" "10.0.0.1:9000" "hi" noon.

(** The message A makes from the line [hi] typed at [noon]. *)
Definition typedHi : SweetNothing :=
  mkSweetNothing (uniqueId noon) "10.0.0.1:9000" "hi" noon.

Definition connToB : Conn := mkConn "10.0.0.2:9000".
Definition connToC : Conn := mkConn "10.0.0.3:9000".
Definition connToA : Conn := mkConn "10.0.0.1:9000".
Definition connFromA : Conn := mkConn "10.0.0.1:40001".
Definition connFromB : Conn := mkConn "10.0.0.2:40002".

(** A process at [10.0.0.1:9000] with two peers: the dialer toward B is
    parked in its receive, the one toward C is writing an earlier
    message. *)
Definition sampleNode : Node :=
  mkNode hostA (LocalInfo.mk "" "9000")
    (Peers.mk {["10.0.0.2:9000" := 0; "10.0.0.3:9000" := 1]}
              [mkChan 0 [] Parked; mkChan 0 [] Idle])
    {["m0" := true]} ∅
    [DialRanging "10.0.0.2:9000" 0 connToB;
     DialEncoding "10.0.0.3:9000" 1 connToC
       (mkSweetNothing "m0" "10.0.0.9:9000" "earlier" noon)]
    [Serving (Some connFromB) zeroSweetNothing]
    [].

(** A's side of the scenario: A dials B, the line [hi] is typed and goes
    out to B, B connects back, and what B floods toward A arrives. *)
Definition scriptA : list Input :=
  [ Typed "/dial 10.0.0.2:9000" noon noon;
    Dial 0 Scheduled;
    Dial 0 (ConnectOk connToB);
    Typed "hi" noon noon;
    Dial 0 Received;
    Dial 0 EncodeOk;
    Accepted (AcceptOk connFromB);
    Wire 0 (Decoded (encode typedHi)) ].

(** B's side: B accepts A's connection, and has dialed A (here by a
    [/dial] command, so that the link back exists when the message
    comes); A's message arrives and B's dialer writes it toward A. *)
Definition scriptB : list Input :=
  [ Accepted (AcceptOk connFromA);
    Typed "/dial 10.0.0.1:9000" noon noon;
    Dial 0 Scheduled;
    Dial 0 (ConnectOk connToA);
    Wire 0 (Decoded (encode typedHi));
    Dial 0 Received;
    Dial 0 EncodeOk ].

(** A's dialer toward B has taken the message [hi] and is writing it. *)
Definition scriptBusy : list Input :=
  [ Typed "/dial 10.0.0.2:9000" noon noon;
    Dial 0 Scheduled;
    Dial 0 (ConnectOk connToB);
    Typed "hi" noon noon;
    Dial 0 Received ].

(** [Accept] fails while a connection from B is being served; B's next
    message would arrive afterwards. *)
Definition scriptAcceptErr : list Input :=
  [ Accepted (AcceptOk connFromB);
    Accepted (AcceptErr "accept tcp: too many open files");
    Wire 0 (Decoded (encode (mkSweetNothing "m2" "10.0.0.2:9000" "still here" noon))) ].

Definition bootAndRun (h : Host) (ins : list Input) : Res Node :=
  match main h "9000" (inl "[::]:9000") with
  | Ok n => run ins n
  | Fatal msg => Fatal msg
  | Panic msg => Panic msg
  end.

(** The states these scripts end in, computed. *)
Definition orElse (r : Res Node) (d : Node) : Node :=
  match r with
  | Ok n => n
  | _ => d
  end.

Definition nodeA : Node :=
  Eval vm_compute in orElse (bootAndRun hostA scriptA) sampleNode.
Definition nodeB : Node :=
  Eval vm_compute in orElse (bootAndRun hostB scriptB) sampleNode.
Definition nodeBusy : Node :=
  Eval vm_compute in orElse (bootAndRun hostA scriptBusy) sampleNode.

Global Instance Conn_eq_dec : EqDecision Conn.
Proof. solve_decision. Defined.
Global Instance WireObj_eq_dec : EqDecision WireObj.
Proof. solve_decision. Defined.
Global Instance Event_eq_dec : EqDecision Event.
Proof. solve_decision. Defined.

(* ===================================================================== *)
(** ** The earlier program: the sending side and [main] *)
(* ===================================================================== *)

Module Earlier.

(** [SweetNothing.String], which [fmt.Println(msg)] prints. *)
Definition String (s : SweetNothing) : string :=
  wrapColor (Addr s) "bold" +:+ " " +:+ Body s.

(** [sendMessageTo]: [err] is the error of [net.Dial], if any.  One
    connection per message: dial, encode, close. *)
Definition sendMessageTo (recipientAddr : string) (err : option string)
    (s : SweetNothing) : Res (list Event) :=
  match err with
  | Some e => Fatal ("sendMessage error: " +:+ e)
  | None =>
      Ok [Dialed recipientAddr;
          Wrote (mkConn recipientAddr) (encode s);
          Closed (mkConn recipientAddr)]
  end.

(** [sendMessage]: one [sendMessageTo] per registered recipient, here one
    after the other in the order of the slice; [dialErr] is what
    [net.Dial] answers for each address. *)
Fixpoint sendMessage (recipientRegistry : list string)
    (dialErr : string → option string) (s : SweetNothing) : Res (list Event) :=
  match recipientRegistry with
  | [] => Ok []
  | addr :: rest =>
      match sendMessageTo addr (dialErr addr) s with
      | Ok evs =>
          match sendMessage rest dialErr s with
          | Ok evs' => Ok (evs ++ evs')
          | Fatal msg => Fatal msg
          | Panic msg => Panic msg
          end
      | Fatal msg => Fatal msg
      | Panic msg => Panic msg
      end
  end.

(** One turn of the loop of [startScanner]. *)
Definition startScanner (h : Host) (i : LocalInfo.t)
    (recipientRegistry : list string) (dialErr : string → option string)
    (text : string) (idNow stamp : Time) : Res (list Event) :=
  if decide (0 < String.length text) then
    match LocalInfo.Addr h i with
    | Ok me =>
        sendMessage recipientRegistry dialErr
          (mkSweetNothing (uniqueId idNow) me text stamp)
    | Fatal msg => Fatal msg
    | Panic msg => Panic msg
    end
  else Ok [].

(** [main] up to the start of the goroutines: the local info and the
    recipient registry it sets up. *)
Definition main (h : Host) (port : string) : Res (LocalInfo.t * list string) :=
  if decide (String.length port < 4) then
    Fatal ("Invalid listen port (" +:+ port +:+ ")")
  else
    let i := LocalInfo.mk "" port in
    match LocalInfo.Addr h i with
    | Ok me => Ok (i, [me])
    | Fatal msg => Fatal msg
    | Panic msg => Panic msg
    end.

End Earlier.

(* ===================================================================== *)
(** ** More sample inputs *)
(* ===================================================================== *)

(** A has dialed B and its dialer is parked in the receive. *)
Definition scriptParked : list Input :=
  [ Typed "/dial 10.0.0.2:9000" noon noon;
    Dial 0 Scheduled;
    Dial 0 (ConnectOk connToB) ].

Definition nodeParked : Node :=
  Eval vm_compute in orElse (bootAndRun hostA scriptParked) sampleNode.

(** The protocol state: everything but the nicknames and the trace. *)
Definition protocol (n : Node)
  : Host * LocalInfo.t * Peers.t * gmap string bool * list DialPC * list ServePC :=
  (host n, localInfo n, peers n, seenIds n, dialers n, servers n).

(** What left the process: everything in the trace but the lines on
    standard output. *)
Definition isStdout (e : Event) : bool :=
  match e with
  | Stdout _ => true
  | _ => false
  end.

Definition effects (t : list Event) : list Event :=
  filter (λ e, isStdout e = false) t.

(** Two processes that differ at most in their nicknames and in what they
    printed. *)
Definition sameProtocol (n1 n2 : Node) : Prop :=
  protocol n1 = protocol n2 ∧ effects (trace n1) = effects (trace n2).

(** Two outcomes that end the same way, with values related by [V] and
    states that still differ at most in nicknames and printed lines. *)
Definition sameOutcome {A B} (V : A → B → Prop)
    (r1 : Res (A * Node)) (r2 : Res (B * Node)) : Prop :=
  match r1, r2 with
  | Ok (a1, n1), Ok (a2, n2) => V a1 a2 ∧ sameProtocol n1 n2
  | Fatal m1, Fatal m2 => m1 = m2
  | Panic m1, Panic m2 => m1 = m2
  | _, _ => False
  end.

Definition related {A B} (V : A → B → Prop) (m1 : M A) (m2 : M B) : Prop :=
  ∀ n1 n2, sameProtocol n1 n2 → sameOutcome V (m1 n1) (m2 n2).

(** The same for whole runs. *)
Definition sameRun (r1 r2 : Res Node) : Prop :=
  match r1, r2 with
  | Ok n1, Ok n2 => sameProtocol n1 n2
  | Fatal m1, Fatal m2 => m1 = m2
  | Panic m1, Panic m2 => m1 = m2
  | _, _ => False
  end.

(* ===================================================================== *)
(** ** Properties of the dedup cache *)
(* ===================================================================== *)

Section dedup.
Implicit Types (m : gmap string bool) (id : string).

Lemma SeenId_fst m id : (SeenId id m).1 = default false (m !! id).
Proof. reflexivity. Qed.

Lemma SeenId_snd m id : (SeenId id m).2 = <[id := true]> m.
Proof. reflexivity. Qed.

Lemma marked_empty : marked ∅.
Proof. intros id b; by rewrite lookup_empty. Qed.

Lemma marked_SeenId m id : marked m → marked (SeenId id m).2.
Proof.
  intros Hm id' b; rewrite SeenId_snd, lookup_insert.
  case_decide; [by intros [= <-] | apply Hm].
Qed.

Lemma SeenIds_snd_lookup ids : ∀ m id,
  (SeenIds ids m).2 !! id
  = if decide (id ∈ ids) then Some true else m !! id.
Proof.
  induction ids as [|i ids IH]; intros m id; simpl.
  - done.
  - specialize (IH (<[i := true]> m) id).
    destruct (SeenIds ids (<[i := true]> m)) as [oks m2] eqn:E; simpl in *.
    rewrite IH, lookup_insert.
    destruct (decide (id ∈ ids)) as [Hin|Hin];
      destruct (decide (id ∈ i :: ids)) as [Hin'|Hin']; try done.
    + exfalso; apply Hin'; by right.
    + apply elem_of_cons in Hin' as [->|?]; [|done].
      by rewrite decide_True.
    + rewrite decide_False; [done|]. intros ->. apply Hin'; by left.
Qed.

Lemma marked_SeenIds ids : ∀ m, marked m → marked (SeenIds ids m).2.
Proof.
  intros m Hm id b; rewrite SeenIds_snd_lookup.
  case_decide; [by intros [= <-] | apply Hm].
Qed.

Lemma SeenIds_fst_lookup ids : ∀ m k id,
  marked m → ids !! k = Some id →
  (SeenIds ids m).1 !! k
  = Some (bool_decide (id ∈ take k ids ∨ is_Some (m !! id))).
Proof.
  induction ids as [|i ids IH]; intros m k id Hm Hk; [done|].
  simpl. pose proof (IH (<[i := true]> m)) as IH'.
  destruct (SeenIds ids (<[i := true]> m)) as [oks m2] eqn:E; simpl in *.
  destruct k as [|k]; simpl in *.
  - injection Hk as ->. f_equal.
    destruct (m !! id) as [b|] eqn:Hid; [rewrite (Hm _ _ Hid)|]; done.
  - rewrite (IH' k id); [| by apply (marked_SeenId m i) | done].
    f_equal. apply bool_decide_ext.
    rewrite lookup_insert, elem_of_cons.
    case_decide as Hi; subst; [split; eauto |].
    split; [intros [?|?]; eauto | intros [[->|?]|?]; [done | eauto..]].
Qed.

End dedup.

(** C1. [SeenId] answers [true] exactly when the id was already in the
    cache, and leaves the id recorded; hence, from the empty cache, the
    answer to a call is [false] exactly when no earlier call carried the
    same id (the first call with an id answers [false], every later one
    [true]), whatever calls for other ids come in between. *)
Theorem SeenId_check_and_mark (m : gmap string bool) (id : string) :
  marked m →
  ((SeenId id m).1 = true ↔ is_Some (m !! id)) ∧
  ((SeenId id m).1 = false ↔ m !! id = None) ∧
  (SeenId id m).2 !! id = Some true ∧
  (∀ id', id' ≠ id → (SeenId id m).2 !! id' = m !! id') ∧
  marked (SeenId id m).2 ∧
  (∀ others, (SeenId id (SeenIds others (SeenId id m).2).2).1 = true) ∧
  (∀ ids k, ids !! k = Some id →
     (SeenIds ids ∅).1 !! k = Some (bool_decide (id ∈ take k ids))).
Proof.
  intros Hm. rewrite SeenId_fst, SeenId_snd.
  split_and!.
  - destruct (m !! id) as [b|] eqn:E; simpl.
    + rewrite (Hm _ _ E). split; eauto.
    + split; [done | by intros [? ?]].
  - destruct (m !! id) as [b|] eqn:E; simpl; [|done].
    rewrite (Hm _ _ E). split; done.
  - apply lookup_insert_eq.
  - intros id' Hne. by apply lookup_insert_ne.
  - apply (marked_SeenId m id Hm).
  - intros others. rewrite SeenId_fst, SeenIds_snd_lookup.
    case_decide; [done|]. by rewrite lookup_insert_eq.
  - intros ids k Hk.
    rewrite (SeenIds_fst_lookup ids ∅ k id marked_empty Hk).
    f_equal. apply bool_decide_ext. rewrite lookup_empty.
    split; [intros [H|[? H]]; [done | done] | eauto].
Qed.

Lemma SeenId_check_and_mark_witness :
  marked {["m1" := true]} ∧
  (SeenId "m1" {["m1" := true]}).1 = true ∧
  (SeenId "m2" {["m1" := true]}).1 = false ∧
  (SeenIds ["m1"; "m2"; "m1"; "m1"; "m2"] ∅).1 !! 3 = Some true.
Proof.
  assert (Hm : marked {["m1" := true]}).
  { intros id b. rewrite lookup_singleton. case_decide; [by intros [= <-] | done]. }
  split; [exact Hm|].
  pose proof (SeenId_check_and_mark {["m1" := true]} "m1" Hm) as (H1 & _ & _ & _ & _ & _ & H7).
  pose proof (SeenId_check_and_mark {["m1" := true]} "m2" Hm) as (_ & H2 & _).
  split_and!.
  - apply H1. by rewrite lookup_singleton_eq.
  - apply H2. by rewrite lookup_singleton_ne.
  - by rewrite (H7 ["m1"; "m2"; "m1"; "m1"; "m2"] 3).
Defined.

(* ===================================================================== *)
(** ** Properties of the peer registry *)
(* ===================================================================== *)

Section registry.
Import Peers.
Implicit Types (p : Peers.t) (addr a : string) (cs : list Call).

Lemma Add_present addr p :
  is_Some (channels p !! addr) → Add addr p = (None, p).
Proof. intros [c Hc]. unfold Add. by rewrite Hc. Qed.

Lemma Add_absent addr p :
  channels p !! addr = None →
  Add addr p
  = (Some (length (heap p)),
     mk (<[addr := length (heap p)]> (channels p)) (heap p ++ [makeChan])).
Proof. intros Hc. unfold Add. by rewrite Hc. Qed.

Lemma Add_channels_other addr a p :
  a ≠ addr → channels (Add addr p).2 !! a = channels p !! a.
Proof.
  intros Hne. unfold Add.
  destruct (channels p !! addr); simpl; [done|].
  by rewrite lookup_insert_ne.
Qed.

Lemma Add_channels_same addr p : is_Some (channels (Add addr p).2 !! addr).
Proof.
  unfold Add. destruct (channels p !! addr) eqn:E; simpl; [by rewrite E|].
  rewrite lookup_insert_eq. eauto.
Qed.

Lemma Add_heap_prefix addr p : heap p `prefix_of` heap (Add addr p).2.
Proof.
  unfold Add. destruct (channels p !! addr); simpl; [done|].
  by apply prefix_app_r.
Qed.

Lemma allocated_Add addr p : allocated p → allocated (Add addr p).2.
Proof.
  intros Hp a c. unfold Add.
  destruct (channels p !! addr) eqn:E; simpl; [apply Hp|].
  rewrite length_app, lookup_insert. simpl.
  case_decide; [intros [= <-]; lia|]. intros Hc%Hp. lia.
Qed.

Lemma allocated_Remove addr p : allocated p → allocated (Remove addr p).
Proof.
  intros Hp a c. unfold Remove; simpl. rewrite lookup_delete.
  case_decide; [done | apply Hp].
Qed.

(** While [addr] stays registered, [Add addr] hands out nothing. *)
Lemma handles_present addr cs : ∀ p,
  is_Some (channels p !! addr) → CallRemove addr ∉ cs →
  Forall (λ r, r = None) (handles addr cs p).1.
Proof.
  induction cs as [|[a|a] cs IH]; intros p Hin Hrm; simpl.
  - constructor.
  - assert (Hrm' : CallRemove addr ∉ cs) by (intros ?; apply Hrm; by right).
    destruct (Add a p) as [r p1] eqn:Ea.
    assert (Hin1 : is_Some (channels p1 !! addr)).
    { replace p1 with (Add a p).2 by (by rewrite Ea).
      destruct (decide (addr = a)) as [->|Hne];
        [apply Add_channels_same | by rewrite Add_channels_other]. }
    specialize (IH p1 Hin1 Hrm').
    destruct (handles addr cs p1) as [rs p2]; simpl in *.
    case_decide; [subst a|done].
    constructor; [|done].
    rewrite (Add_present addr p Hin) in Ea. by injection Ea as <- _.
  - assert (Hne : a ≠ addr) by (intros ->; apply Hrm; by left).
    apply IH; [|intros ?; apply Hrm; by right].
    unfold Remove; simpl. by rewrite lookup_delete_ne.
Qed.

(** From a registry without [addr], the first [Add addr] gets a handle
    and the later ones get none. *)
Lemma handles_absent addr cs : ∀ p,
  channels p !! addr = None → CallRemove addr ∉ cs →
  match (handles addr cs p).1 with
  | [] => True
  | r :: rs => is_Some r ∧ Forall (λ r, r = None) rs
  end.
Proof.
  induction cs as [|[a|a] cs IH]; intros p Hout Hrm; simpl.
  - done.
  - assert (Hrm' : CallRemove addr ∉ cs) by (intros ?; apply Hrm; by right).
    destruct (Add a p) as [r p1] eqn:Ea.
    destruct (decide (a = addr)) as [->|Hne].
    + rewrite (Add_absent addr p Hout) in Ea. injection Ea as <- <-.
      pose proof (handles_present addr cs
        (mk (<[addr := length (heap p)]> (channels p)) (heap p ++ [makeChan])))
        as Hp.
      destruct (handles addr cs _) as [rs p2]; simpl in *.
      split; [eauto|]. apply Hp; [|done].
      rewrite lookup_insert_eq. eauto.
    + assert (Hout1 : channels p1 !! addr = None).
      { replace p1 with (Add a p).2 by (by rewrite Ea).
        by rewrite Add_channels_other. }
      specialize (IH p1 Hout1 Hrm').
      by destruct (handles addr cs p1) as [rs p2].
  - assert (Hne : a ≠ addr) by (intros ->; apply Hrm; by left).
    apply IH; [|intros ?; apply Hrm; by right].
    unfold Remove; simpl. by rewrite lookup_delete_ne.
Qed.

End registry.

(** C3. [Add addr] on a registry that has [addr] returns nothing and
    leaves the registry as it is; otherwise it makes a new channel (one no
    registered handle names), registers it under [addr], leaves the other
    entries alone and returns it.  The registry lists every address once,
    and of the [Add addr] calls of any script without [Remove addr],
    started where [addr] is not registered, the first gets a handle and
    no later one does. *)
Theorem Add_first_writer_wins (addr : string) (p : Peers.t) :
  (is_Some (Peers.channels p !! addr) → Peers.Add addr p = (None, p)) ∧
  (Peers.channels p !! addr = None →
     ∃ ch, (Peers.Add addr p).1 = Some ch ∧
       Peers.channels (Peers.Add addr p).2 !! addr = Some ch ∧
       Peers.heap (Peers.Add addr p).2 !! ch = Some makeChan ∧
       Peers.heap p !! ch = None ∧
       (Peers.allocated p → ∀ a c, Peers.channels p !! a = Some c → c ≠ ch)) ∧
  (∀ a, a ≠ addr →
     Peers.channels (Peers.Add addr p).2 !! a = Peers.channels p !! a) ∧
  Peers.heap p `prefix_of` Peers.heap (Peers.Add addr p).2 ∧
  NoDup (map_to_list (Peers.channels (Peers.Add addr p).2)).*1 ∧
  (∀ cs, Peers.channels p !! addr = None → Peers.CallRemove addr ∉ cs →
     match (Peers.handles addr cs p).1 with
     | [] => True
     | r :: rs => is_Some r ∧ Forall (λ r, r = None) rs
     end).
Proof.
  split_and!.
  - apply Add_present.
  - intros Hout. exists (length (Peers.heap p)).
    rewrite (Add_absent addr p Hout); simpl. split_and!.
    + done.
    + apply lookup_insert_eq.
    + by rewrite lookup_app_r, Nat.sub_diag.
    + by apply lookup_ge_None.
    + intros Hp a c Hc%Hp. lia.
  - intros a Hne. by apply Add_channels_other.
  - apply Add_heap_prefix.
  - apply NoDup_fst_map_to_list.
  - intros cs. apply handles_absent.
Qed.

Lemma Add_first_writer_wins_witness :
  Peers.Add "10.0.0.2:9000" (Peers.mk {["10.0.0.2:9000" := 0]} [makeChan])
  = (None, Peers.mk {["10.0.0.2:9000" := 0]} [makeChan]) ∧
  (∃ ch, (Peers.Add "10.0.0.3:9000"
            (Peers.mk {["10.0.0.2:9000" := 0]} [makeChan])).1 = Some ch) ∧
  (Peers.handles "b"
     [Peers.CallAdd "a"; Peers.CallAdd "b"; Peers.CallRemove "a";
      Peers.CallAdd "b"; Peers.CallAdd "b"] (Peers.mk ∅ [])).1
  = [Some 1; None; None].
Proof.
  split_and!.
  - apply (Add_first_writer_wins "10.0.0.2:9000"
             (Peers.mk {["10.0.0.2:9000" := 0]} [makeChan])).
    simpl. rewrite lookup_singleton_eq. eauto.
  - destruct (Add_first_writer_wins "10.0.0.3:9000"
                (Peers.mk {["10.0.0.2:9000" := 0]} [makeChan]))
      as (_ & H & _).
    destruct H as (ch & H & _); [by simpl; rewrite lookup_singleton_ne|].
    by exists ch.
  - reflexivity.
Defined.

(* ===================================================================== *)
(** ** Properties of broadcast *)
(* ===================================================================== *)

Section fanout.
Implicit Types (w : SweetNothing) (h : list Chan) (l : list nat) (c : Chan).

Lemma trySend_is_Some w c : is_Some (trySend w c) ↔ ready c.
Proof.
  unfold trySend, ready.
  destruct (recv c) eqn:E; try case_decide; split;
    try (by eauto); try (by intros [? ?]); intros [?|?]; by eauto.
Qed.

Lemma trySend_cap w c c' : trySend w c = Some c' → cap c' = cap c.
Proof.
  unfold trySend. destruct (recv c); try case_decide; by intros [= <-].
Qed.

Lemma attempt_Sent w h ch :
  attempt w h ch = Sent ch w ↔ ∃ c, h !! ch = Some c ∧ ready c.
Proof.
  unfold attempt. destruct (h !! ch) as [c|] eqn:E; simpl.
  - destruct (trySend w c) eqn:T.
    + split; [|done]. intros _. exists c. split; [done|].
      apply (trySend_is_Some w). eauto.
    + split; [done|]. intros (c' & [= <-] & Hr).
      apply (trySend_is_Some w) in Hr as [? Hr]. congruence.
  - split; [done|]. by intros (c & ? & _).
Qed.

Lemma attempt_shape w h ch :
  attempt w h ch = Sent ch w ∨ attempt w h ch = Dropped ch w.
Proof. unfold attempt. destruct (h !! ch ≫= trySend w); eauto. Qed.

Lemma attempt_insert_ne w h ch x c :
  ch ≠ x → attempt w (<[x := c]> h) ch = attempt w h ch.
Proof. intros Hne. unfold attempt. by rewrite list_lookup_insert_ne. Qed.

Lemma broadcastTo_length l w : ∀ h, length (broadcastTo l w h).1 = length h.
Proof.
  induction l as [|x l IH]; intros h; simpl; [done|].
  destruct (h !! x ≫= trySend w) as [c|].
  - specialize (IH (<[x := c]> h)).
    destruct (broadcastTo l w (<[x := c]> h)); simpl in *.
    by rewrite IH, length_insert.
  - specialize (IH h). by destruct (broadcastTo l w h).
Qed.

(** One event per handle, in the order of the snapshot. *)
Lemma broadcastTo_shape l w : ∀ h,
  Forall2 (λ ch e, e = Sent ch w ∨ e = Dropped ch w) l (broadcastTo l w h).2.
Proof.
  induction l as [|x l IH]; intros h; simpl; [constructor|].
  destruct (h !! x ≫= trySend w) as [c|].
  - specialize (IH (<[x := c]> h)).
    destruct (broadcastTo l w (<[x := c]> h)); simpl in *.
    constructor; eauto.
  - specialize (IH h). destruct (broadcastTo l w h); simpl in *.
    constructor; eauto.
Qed.

(** With every handle listed once, each select sees the channel as it
    was when [broadcast] was entered. *)
Lemma broadcastTo_events l w : ∀ h,
  NoDup l → (broadcastTo l w h).2 = map (attempt w h) l.
Proof.
  induction l as [|x l IH]; intros h Hnd; simpl; [done|].
  apply NoDup_cons in Hnd as [Hx Hnd].
  unfold attempt at 1.
  destruct (h !! x ≫= trySend w) as [c|] eqn:E.
  - specialize (IH (<[x := c]> h) Hnd).
    destruct (broadcastTo l w (<[x := c]> h)); simpl in *.
    f_equal. rewrite IH. apply map_ext_in. intros ch Hch.
    apply attempt_insert_ne. intros ->. by apply Hx, list_elem_of_In.
  - specialize (IH h Hnd). destruct (broadcastTo l w h); simpl in *.
    by f_equal.
Qed.

Lemma broadcastTo_lookup l w : ∀ h ch,
  NoDup l →
  (broadcastTo l w h).1 !! ch
  = if decide (ch ∈ l) then afterAttempt w h ch else h !! ch.
Proof.
  induction l as [|x l IH]; intros h ch Hnd; simpl; [done|].
  apply NoDup_cons in Hnd as [Hx Hnd].
  destruct (h !! x ≫= trySend w) as [c|] eqn:E.
  - specialize (IH (<[x := c]> h) ch Hnd).
    destruct (broadcastTo l w (<[x := c]> h)); simpl in *.
    rewrite IH. destruct (decide (ch = x)) as [->|Hne].
    + rewrite decide_False by done. rewrite decide_True by (by left).
      unfold afterAttempt. rewrite E.
      apply list_lookup_insert_eq.
      destruct (h !! x) eqn:Hx'; [by eapply lookup_lt_Some | done].
    + unfold afterAttempt. rewrite list_lookup_insert_ne by done.
      destruct (decide (ch ∈ l)) as [Hin|Hin].
      * by rewrite decide_True by (by right).
      * rewrite decide_False; [done|].
        intros [?|?]%elem_of_cons; done.
  - specialize (IH h ch Hnd). destruct (broadcastTo l w h); simpl in *.
    rewrite IH. destruct (decide (ch = x)) as [->|Hne].
    + rewrite decide_False by done. rewrite decide_True by (by left).
      unfold afterAttempt. by rewrite E.
    + destruct (decide (ch ∈ l)) as [Hin|Hin].
      * by rewrite decide_True by (by right).
      * rewrite decide_False; [done|].
        intros [?|?]%elem_of_cons; done.
Qed.

(** The channels after the loop do not depend on the order in which the
    snapshot lists the handles. *)
Lemma broadcastTo_order l l' w h :
  NoDup l → l ≡ₚ l' → (broadcastTo l w h).1 = (broadcastTo l' w h).1.
Proof.
  intros Hnd Hp. apply list_eq. intros ch.
  rewrite !broadcastTo_lookup; [|by rewrite <- Hp|done].
  destruct (decide (ch ∈ l)) as [Hin|Hin].
  - rewrite decide_True; [done | by rewrite <- Hp].
  - rewrite decide_False; [done | by rewrite <- Hp].
Qed.

Lemma broadcastTo_untouched l w : ∀ h ch,
  ch ∉ l → (broadcastTo l w h).1 !! ch = h !! ch.
Proof.
  induction l as [|x l IH]; intros h ch Hch; simpl; [done|].
  apply not_elem_of_cons in Hch as [Hne Hch].
  destruct (h !! x ≫= trySend w) as [c|] eqn:E.
  - specialize (IH (<[x := c]> h) ch Hch).
    destruct (broadcastTo l w (<[x := c]> h)); simpl in *.
    by rewrite IH, list_lookup_insert_ne.
  - specialize (IH h ch Hch). by destruct (broadcastTo l w h).
Qed.

(** The capacity of a channel is never changed by a send. *)
Lemma broadcastTo_cap l w : ∀ h ch c',
  (broadcastTo l w h).1 !! ch = Some c' →
  ∃ c, h !! ch = Some c ∧ cap c' = cap c.
Proof.
  induction l as [|x l IH]; intros h ch c'; simpl; [eauto|].
  destruct (h !! x ≫= trySend w) as [c|] eqn:E.
  - specialize (IH (<[x := c]> h) ch c').
    destruct (broadcastTo l w (<[x := c]> h)); simpl in *.
    intros (c0 & H0 & Hcap)%IH.
    destruct (h !! x) as [cx|] eqn:Hx; [|done]. simpl in E.
    destruct (decide (ch = x)) as [->|Hne].
    + rewrite list_lookup_insert_eq in H0 by (by eapply lookup_lt_Some).
      injection H0 as <-. exists cx. split; [done|].
      rewrite Hcap. by eapply trySend_cap.
    + rewrite list_lookup_insert_ne in H0 by done. eauto.
  - specialize (IH h ch c'). by destruct (broadcastTo l w h).
Qed.

End fanout.

(** What [broadcast] leaves alone. *)
Lemma broadcast_Ok (whisper : SweetNothing) (n : Node) :
  broadcast whisper n
  = Ok ((), mkNode (host n) (localInfo n)
              (Peers.mk (Peers.channels (peers n))
                 (broadcastTo (Peers.List (peers n)) whisper
                    (Peers.heap (peers n))).1)
              (seenIds n) (nicknames n) (dialers n) (servers n)
              (trace n ++ Broadcast whisper
                 :: (broadcastTo (Peers.List (peers n)) whisper
                       (Peers.heap (peers n))).2)).
Proof.
  unfold broadcast.
  by destruct (broadcastTo (Peers.List (peers n)) whisper (Peers.heap (peers n))).
Qed.

(** C4. [broadcast] always returns.  It goes through the handles of the
    registry snapshot once, with one select per handle, each of which
    either sends or drops; when the snapshot lists every channel once,
    the select on a handle sends exactly when its channel was ready at
    entry, and the channels end up the same in whichever order the
    snapshot lists them.  A send puts the message on the channel: it is
    handed to the receiver parked there, or else appended to the buffer;
    a drop leaves the channel as it was.  The registry map, the dedup
    cache and the rest of the process state are as before, and so are the
    channels outside the snapshot. *)
Theorem broadcast_one_attempt_per_handle (whisper : SweetNothing) (n : Node) :
  ∃ n' evs,
    broadcast whisper n = Ok ((), n') ∧
    trace n' = trace n ++ Broadcast whisper :: evs ∧
    Forall2 (λ ch e, e = Sent ch whisper ∨ e = Dropped ch whisper)
      (Peers.List (peers n)) evs ∧
    (NoDup (Peers.List (peers n)) →
       evs = map (attempt whisper (Peers.heap (peers n))) (Peers.List (peers n)) ∧
       (∀ ch, ch ∈ Peers.List (peers n) →
          (Sent ch whisper ∈ evs ↔
           ∃ c, Peers.heap (peers n) !! ch = Some c ∧ ready c) ∧
          (Dropped ch whisper ∈ evs ↔
           ¬ ∃ c, Peers.heap (peers n) !! ch = Some c ∧ ready c)) ∧
       (∀ l, l ≡ₚ Peers.List (peers n) →
          (broadcastTo l whisper (Peers.heap (peers n))).1
          = Peers.heap (peers n')) ∧
       (∀ ch c, ch ∈ Peers.List (peers n) →
          Peers.heap (peers n) !! ch = Some c →
          Peers.heap (peers n') !! ch
          = Some (if decide (recv c = Parked)
                  then mkChan (cap c) (buf c) (Handed whisper)
                  else if decide (length (buf c) < cap c)
                       then mkChan (cap c) (buf c ++ [whisper]) (recv c)
                       else c))) ∧
    Peers.channels (peers n') = Peers.channels (peers n) ∧
    seenIds n' = seenIds n ∧
    nicknames n' = nicknames n ∧
    dialers n' = dialers n ∧
    servers n' = servers n ∧
    length (Peers.heap (peers n')) = length (Peers.heap (peers n)) ∧
    (∀ ch, ch ∉ Peers.List (peers n) →
       Peers.heap (peers n') !! ch = Peers.heap (peers n) !! ch).
Proof.
  eexists _, _. split; [apply broadcast_Ok|]. simpl.
  split_and!; try done.
  - apply broadcastTo_shape.
  - intros Hnd. rewrite (broadcastTo_events _ _ _ Hnd). split_and!; [done| | |].
    + intros ch Hch. rewrite <- attempt_Sent. split.
      * split.
        -- intros (ch' & Hev & Hin)%list_elem_of_fmap.
           destruct (attempt_shape whisper (Peers.heap (peers n)) ch') as [E|E];
             rewrite E in Hev; [|done]. injection Hev as ->. done.
        -- intros Hs. apply list_elem_of_fmap. eauto.
      * split.
        -- intros (ch' & Hev & Hin)%list_elem_of_fmap Hs.
           destruct (attempt_shape whisper (Peers.heap (peers n)) ch') as [E|E];
             rewrite E in Hev; [done|]. injection Hev as ->. congruence.
        -- intros Hs. apply list_elem_of_fmap. exists ch. split; [|done].
           by destruct (attempt_shape whisper (Peers.heap (peers n)) ch).
    + intros l Hl. apply broadcastTo_order; [by rewrite Hl|done].
    + intros ch c Hch Hc. rewrite broadcastTo_lookup by done.
      rewrite decide_True by done. unfold afterAttempt. rewrite Hc. simpl.
      unfold trySend. by destruct (recv c); repeat case_decide.
  - apply broadcastTo_length.
  - intros ch Hch. by apply broadcastTo_untouched.
Qed.

(* ===================================================================== *)
(** ** Properties of the serve loop *)
(* ===================================================================== *)

(** Unfolds the monadic plumbing of the handlers. *)
Ltac unfold_M :=
  unfold handleCommand, acceptLoop, setNick, nick, dialDeferred, statusLn,
    emit, goDial, goServeIncoming, peersAdd, peersRemove, seenId, localAddr,
    update, logFatal, panic, bind, ret in *.

Section serve.
Implicit Types (c : Conn) (o : WireObj) (whisper : SweetNothing) (n : Node).

(** The label [nick] computes for [addr] at a process whose address is
    [me]. *)
Lemma nick_Ok addr me n :
  LocalInfo.Addr (host n) (localInfo n) = Ok me →
  nick addr n
  = Ok ("[" +:+ (if decide (addr = me) then "you"
                 else default addr (nicknames n !! addr)) +:+ "]", n).
Proof.
  intros Hme. unfold_M. rewrite Hme.
  case_decide; [done|]. by destruct (nicknames n !! addr).
Qed.

Lemma serveIncoming_seen c whisper o n :
  (SeenId (ID (decodeInto o whisper)) (seenIds n)).1 = true →
  serveIncoming (Serving (Some c) whisper) (Decoded o) n
  = Ok (Serving (Some c) (decodeInto o whisper),
        set_seenIds (λ _, <[ID (decodeInto o whisper) := true]> (seenIds n)) n).
Proof.
  intros Hs. unfold serveIncoming. unfold_M.
  unfold SeenId in *. simpl in *. by rewrite Hs.
Qed.

Lemma serveIncoming_new c whisper o n me :
  (SeenId (ID (decodeInto o whisper)) (seenIds n)).1 = false →
  LocalInfo.Addr (host n) (localInfo n) = Ok me →
  let w := decodeInto o whisper in
  let label := "[" +:+ (if decide (Addr w = me) then "you"
                        else default (Addr w) (nicknames n !! Addr w)) +:+ "]" in
  let sends := broadcastTo (Peers.List (peers n)) w (Peers.heap (peers n)) in
  serveIncoming (Serving (Some c) whisper) (Decoded o) n
  = Ok (Serving (Some c) w,
        mkNode (host n) (localInfo n)
          (Peers.mk (Peers.channels (peers n)) sends.1)
          (<[ID w := true]> (seenIds n)) (nicknames n)
          (dialers n ++ [DialEntry (Addr w)]) (servers n)
          ((trace n ++ [Stdout (bold label +:+ " " +:+ Body w)])
             ++ Broadcast w :: sends.2)).
Proof.
  intros Hs Hme w label sends. unfold serveIncoming.
  fold w. unfold bind at 1. unfold seenId.
  unfold SeenId in *. simpl in *. rewrite Hs.
  unfold bind at 1.
  rewrite (nick_Ok (Addr w) me); [|done]. fold label.
  unfold_M. simpl. by rewrite broadcast_Ok.
Qed.

End serve.

(** C5. For a record decoded on an inbound connection (the variable
    [whisper] after [Decode] stored the object in it): when [SeenId] of its
    id answers [true], nothing is printed, nothing is broadcast and no
    dial is started; when it answers [false] (and the local address
    resolves, as it did at start-up), the record is printed under the
    sender's label, broadcast with one select per registered handle, and a
    dial toward its [Addr] is started.  Either way the goroutine is back
    in [Decode] on the same connection, and the id is in the cache. *)
Theorem serveIncoming_drop_or_flood
    (c : Conn) (whisper : SweetNothing) (o : WireObj) (n : Node) (me : string) :
  LocalInfo.Addr (host n) (localInfo n) = Ok me →
  let w := decodeInto o whisper in
  ∃ n',
    serveIncoming (Serving (Some c) whisper) (Decoded o) n
    = Ok (Serving (Some c) w, n') ∧
    seenIds n' !! ID w = Some true ∧
    servers n' = servers n ∧
    Peers.channels (peers n') = Peers.channels (peers n) ∧
    if (SeenId (ID w) (seenIds n)).1 then
      trace n' = trace n ∧ dialers n' = dialers n ∧ peers n' = peers n
    else
      ∃ evs,
        trace n'
        = trace n
          ++ [Stdout (bold ("[" +:+ (if decide (Addr w = me) then "you"
                                     else default (Addr w) (nicknames n !! Addr w))
                            +:+ "]") +:+ " " +:+ Body w);
              Broadcast w] ++ evs ∧
        Forall2 (λ ch e, e = Sent ch w ∨ e = Dropped ch w)
          (Peers.List (peers n)) evs ∧
        dialers n' = dialers n ++ [DialEntry (Addr w)].
Proof.
  intros Hme w.
  destruct (SeenId (ID w) (seenIds n)).1 eqn:Hs.
  - eexists. split; [by apply serveIncoming_seen|]. simpl.
    split_and!; try done. apply lookup_insert_eq.
  - eexists. split; [by apply (serveIncoming_new c whisper o n me)|]. simpl.
    split_and!; try done; [apply lookup_insert_eq|].
    eexists. split_and!; [|apply broadcastTo_shape|done].
    by rewrite <- app_assoc.
Qed.

Lemma serveIncoming_drop_or_flood_witness :
  ∃ n',
    serveIncoming (Serving (Some connFromB) zeroSweetNothing)
      (Decoded (encode m1)) sampleNode
    = Ok (Serving (Some connFromB) m1, n') ∧
    trace n'
    = [Stdout (bold "[you]" +:+ " hi"); Broadcast m1; Dropped 1 m1; Sent 0 m1] ∧
    dialers n' = dialers sampleNode ++ [DialEntry "10.0.0.1:9000"].
Proof.
  destruct (serveIncoming_drop_or_flood connFromB zeroSweetNothing (encode m1)
              sampleNode "10.0.0.1:9000" eq_refl)
    as (n' & Hrun & _ & _ & _ & Hnew).
  assert (Hs : (SeenId (ID (decodeInto (encode m1) zeroSweetNothing))
                  (seenIds sampleNode)).1 = false) by reflexivity.
  rewrite Hs in Hnew. destruct Hnew as (evs & Htr & Hevs & Hd).
  exists n'. split_and!; [exact Hrun| |exact Hd].
  pose proof (serveIncoming_new connFromB zeroSweetNothing (encode m1)
                sampleNode "10.0.0.1:9000" Hs eq_refl) as Hnew.
  cbv zeta in Hnew. rewrite Hnew in Hrun. injection Hrun as <-. reflexivity.
Defined.

(** C10. The serve loop decodes into one variable for the whole
    connection, and [Decode] stores only the fields the object carries:
    a field an object leaves out keeps the value the previous object gave
    it.  So an object without id that follows an object with id [id] is
    handled under [id]: [SeenId] answers [true] and the record is dropped
    without being printed, broadcast or dialed back, whatever body it
    carries. *)
Theorem serveIncoming_reuses_record
    (c : Conn) (whisper : SweetNothing) (o1 o2 : WireObj) (id : string)
    (n n1 : Node) (pc1 : ServePC) :
  wID o1 = Some id → wID o2 = None →
  serveIncoming (Serving (Some c) whisper) (Decoded o1) n = Ok (pc1, n1) →
  let w1 := decodeInto o1 whisper in
  let w2 := decodeInto o2 w1 in
  pc1 = Serving (Some c) w1 ∧
  ID w2 = id ∧
  Body w2 = default (Body w1) (wBody o2) ∧
  Addr w2 = default (Addr w1) (wAddr o2) ∧
  Timestamp w2 = default (Timestamp w1) (wTimestamp o2) ∧
  ∃ n2,
    serveIncoming pc1 (Decoded o2) n1 = Ok (Serving (Some c) w2, n2) ∧
    trace n2 = trace n1 ∧ dialers n2 = dialers n1 ∧ peers n2 = peers n1.
Proof.
  intros H1 H2 Hrun w1 w2.
  assert (Hid1 : ID w1 = id) by (unfold w1, decodeInto; simpl; by rewrite H1).
  assert (Hid2 : ID w2 = id) by (unfold w2, decodeInto; simpl; by rewrite H2).
  assert (Hpc : pc1 = Serving (Some c) w1 ∧ seenIds n1 !! id = Some true).
  { destruct (SeenId (ID w1) (seenIds n)).1 eqn:Hs.
    - rewrite serveIncoming_seen in Hrun by done.
      injection Hrun as <- <-. simpl. rewrite <- Hid1.
      by rewrite lookup_insert_eq.
    - destruct (LocalInfo.Addr (host n) (localInfo n)) as [me| |] eqn:Hme.
      + pose proof (serveIncoming_new c whisper o1 n me Hs Hme) as Hnew.
        cbv zeta in Hnew. rewrite Hnew in Hrun.
        injection Hrun as <- <-. simpl. fold w1. rewrite <- Hid1.
        by rewrite lookup_insert_eq.
      + revert Hrun. unfold serveIncoming. unfold_M.
        unfold SeenId in *. simpl in *. rewrite Hs. simpl. by rewrite Hme.
      + revert Hrun. unfold serveIncoming. unfold_M.
        unfold SeenId in *. simpl in *. rewrite Hs. simpl. by rewrite Hme. }
  destruct Hpc as [-> Hseen].
  split_and!; try done.
  eexists. split.
  - apply serveIncoming_seen. fold w1 w2. rewrite Hid2.
    unfold SeenId; simpl. by rewrite Hseen.
  - done.
Qed.

Lemma serveIncoming_reuses_record_witness :
  let first := mkWireObj (Some "m1") (Some "10.0.0.2:9000") (Some "hi") (Some noon) in
  let second := mkWireObj None None (Some "something new") None in
  ∃ n1 n2,
    serveIncoming (Serving (Some connFromB) zeroSweetNothing) (Decoded first)
      sampleNode
    = Ok (Serving (Some connFromB)
            (mkSweetNothing "m1" "10.0.0.2:9000" "hi" noon), n1) ∧
    serveIncoming (Serving (Some connFromB)
                     (mkSweetNothing "m1" "10.0.0.2:9000" "hi" noon))
      (Decoded second) n1
    = Ok (Serving (Some connFromB)
            (mkSweetNothing "m1" "10.0.0.2:9000" "something new" noon), n2) ∧
    trace n2 = trace n1.
Proof.
  intros first second.
  assert (Hs : (SeenId (ID (decodeInto first zeroSweetNothing))
                  (seenIds sampleNode)).1 = false) by reflexivity.
  pose proof (serveIncoming_new connFromB zeroSweetNothing first sampleNode
                "10.0.0.1:9000" Hs eq_refl) as Hrun.
  cbv zeta in Hrun.
  destruct (serveIncoming_reuses_record connFromB zeroSweetNothing first second
              "m1" sampleNode _ _ eq_refl eq_refl Hrun)
    as (_ & _ & _ & _ & _ & n2 & Hrun2 & Htr & _).
  eexists _, n2. split_and!; [exact Hrun | exact Hrun2 | exact Htr].
Defined.

(* ===================================================================== *)
(** ** Properties of dial *)
(* ===================================================================== *)

Section dialer.
Implicit Types (n : Node) (addr me : string) (ch : nat) (c : Conn).

Lemma set_peers_id n : set_peers (λ _, peers n) n = n.
Proof. by destruct n. Qed.

(** The guard: nothing at all happens. *)
Lemma dial_self n me :
  LocalInfo.Addr (host n) (localInfo n) = Ok me →
  dial (DialEntry me) Scheduled n = Ok (DialReturned, n).
Proof.
  intros Hme. unfold dial. unfold_M. rewrite Hme.
  by rewrite decide_True.
Qed.

(** Another goroutine owns the address: nothing happens either. *)
Lemma dial_taken n me addr :
  LocalInfo.Addr (host n) (localInfo n) = Ok me → addr ≠ me →
  is_Some (Peers.channels (peers n) !! addr) →
  dial (DialEntry addr) Scheduled n = Ok (DialReturned, n).
Proof.
  intros Hme Hne Hin. unfold dial. unfold_M. rewrite Hme.
  rewrite decide_False by done. rewrite (Add_present _ _ Hin).
  by rewrite set_peers_id.
Qed.

Lemma dial_fresh n me addr :
  LocalInfo.Addr (host n) (localInfo n) = Ok me → addr ≠ me →
  Peers.channels (peers n) !! addr = None →
  dial (DialEntry addr) Scheduled n
  = Ok (DialConnecting addr (length (Peers.heap (peers n))),
        mkNode (host n) (localInfo n)
          (Peers.mk (<[addr := length (Peers.heap (peers n))]>
                       (Peers.channels (peers n)))
                    (Peers.heap (peers n) ++ [makeChan]))
          (seenIds n) (nicknames n) (dialers n) (servers n)
          ((trace n ++ [Stdout (statusLine ("Dialing " +:+ addr))])
             ++ [Dialed addr])).
Proof.
  intros Hme Hne Hout. unfold dial. unfold_M. rewrite Hme.
  rewrite decide_False by done. by rewrite (Add_absent _ _ Hout).
Qed.

Lemma dial_connect_failed n addr ch :
  dial (DialConnecting addr ch) ConnectErr n
  = Ok (DialReturned,
        mkNode (host n) (localInfo n) (Peers.Remove addr (peers n))
          (seenIds n) (nicknames n) (dialers n) (servers n)
          (trace n ++ [Logged ("[Error dialing " +:+ addr +:+ "]")])).
Proof. reflexivity. Qed.

Lemma dial_encode_failed n addr ch c s err :
  dial (DialEncoding addr ch c s) (EncodeErr err) n
  = Ok (DialReturned,
        mkNode (host n) (localInfo n) (Peers.Remove addr (peers n))
          (seenIds n) (nicknames n) (dialers n) (servers n)
          (((trace n ++ [Logged ("[Error encoding message] " +:+ err)])
              ++ [Closed c])
             ++ [Stdout (statusLine ("Closed connection to " +:+ RemoteAddr c))])).
Proof. reflexivity. Qed.

Lemma dial_range_ended n addr ch c :
  dial (DialRanging addr ch c) RangeEnd n
  = Ok (DialReturned,
        mkNode (host n) (localInfo n) (Peers.Remove addr (peers n))
          (seenIds n) (nicknames n) (dialers n) (servers n)
          ((trace n ++ [Closed c])
             ++ [Stdout (statusLine ("Closed connection to " +:+ RemoteAddr c))])).
Proof. reflexivity. Qed.

(** A goroutine that owns an entry returns on exactly three inputs. *)
Lemma dial_returns_when pc e n n' addr ch :
  owns pc = Some (addr, ch) →
  dial pc e n = Ok (DialReturned, n') →
  (pc = DialConnecting addr ch ∧ e = ConnectErr) ∨
  (∃ c, pc = DialRanging addr ch c ∧ e = RangeEnd) ∨
  (∃ c s err, pc = DialEncoding addr ch c s ∧ e = EncodeErr err).
Proof.
  intros Ho Hd.
  destruct pc as [a|a x|a x c|a x c s|]; simpl in Ho; try done;
    injection Ho as -> ->.
  - destruct e; try (by injection Hd); eauto.
    revert Hd. unfold dial, rangeNext. unfold_M. simpl.
    destruct (Peers.heap (peers n) !! ch) as [q|]; [|done].
    by destruct (buf q).
  - destruct e; try (by injection Hd); eauto.
    revert Hd. unfold dial, takeHanded. unfold_M.
    destruct (Peers.heap (peers n) !! ch) as [q|]; [|done].
    by destruct (recv q).
  - destruct e; try (by injection Hd); eauto 10.
    revert Hd. unfold dial, rangeNext. unfold_M. simpl.
    destruct (Peers.heap (peers n) !! ch) as [q|]; [|done].
    by destruct (buf q).
Qed.

End dialer.

(** C6. A [dial] goroutine that got a handle for [addr] (so [addr] is not
    the local address and was not registered) owns the registry entry of
    [addr] until it returns, and whenever it returns the entry is gone.
    It returns on a connect error, on an encode error and when the range
    over its channel ends; each time the last thing it does is
    [Remove(addr)], after closing the connection if there is one. *)
Theorem dial_releases_entry (addr : string) (ch : nat) (n : Node) :
  (∀ pc e n', owns pc = Some (addr, ch) →
     dial pc e n = Ok (DialReturned, n') →
     Peers.channels (peers n') !! addr = None ∧
     ∀ a, a ≠ addr →
       Peers.channels (peers n') !! a = Peers.channels (peers n) !! a) ∧
  (∃ n', dial (DialConnecting addr ch) ConnectErr n = Ok (DialReturned, n') ∧
     Peers.channels (peers n') !! addr = None) ∧
  (∀ c s err, ∃ n',
     dial (DialEncoding addr ch c s) (EncodeErr err) n = Ok (DialReturned, n') ∧
     Peers.channels (peers n') !! addr = None ∧ Closed c ∈ trace n') ∧
  (∀ c, ∃ n',
     dial (DialRanging addr ch c) RangeEnd n = Ok (DialReturned, n') ∧
     Peers.channels (peers n') !! addr = None ∧ Closed c ∈ trace n') ∧
  (∀ me pc' n', LocalInfo.Addr (host n) (localInfo n) = Ok me →
     dial (DialEntry addr) Scheduled n = Ok (pc', n') →
     owns pc' = Some (addr, ch) →
     addr ≠ me ∧ Peers.channels (peers n) !! addr = None ∧
     Peers.channels (peers n') !! addr = Some ch).
Proof.
  split_and!.
  - intros pc e n' Ho Hd.
    destruct (dial_returns_when pc e n n' addr ch Ho Hd)
      as [[-> ->]|[(c & -> & ->)|(c & s & err & -> & ->)]].
    + rewrite dial_connect_failed in Hd. injection Hd as <-. simpl.
      split; [apply lookup_delete_eq | intros; by apply lookup_delete_ne].
    + rewrite dial_range_ended in Hd. injection Hd as <-. simpl.
      split; [apply lookup_delete_eq | intros; by apply lookup_delete_ne].
    + rewrite dial_encode_failed in Hd. injection Hd as <-. simpl.
      split; [apply lookup_delete_eq | intros; by apply lookup_delete_ne].
  - eexists. split; [apply dial_connect_failed|]. apply lookup_delete_eq.
  - intros c s err. eexists. split; [apply dial_encode_failed|]. simpl.
    split; [apply lookup_delete_eq|]. set_solver.
  - intros c. eexists. split; [apply dial_range_ended|]. simpl.
    split; [apply lookup_delete_eq|]. set_solver.
  - intros me pc' n' Hme Hd Ho.
    destruct (decide (addr = me)) as [->|Hne].
    { rewrite (dial_self n me Hme) in Hd. by injection Hd as <- <-. }
    destruct (Peers.channels (peers n) !! addr) as [x|] eqn:Hin.
    { rewrite (dial_taken n me addr Hme Hne) in Hd by eauto.
      by injection Hd as <- <-. }
    rewrite (dial_fresh n me addr Hme Hne Hin) in Hd.
    injection Hd as <- <-. simpl in *. injection Ho as <-.
    split_and!; [done..|]. apply lookup_insert_eq.
Qed.

Lemma dial_releases_entry_witness :
  ∃ n',
    dial (DialEncoding "10.0.0.3:9000" 1 connToC m1) (EncodeErr "broken pipe")
      sampleNode
    = Ok (DialReturned, n') ∧
    Peers.channels (peers n') !! "10.0.0.3:9000" = None ∧
    Peers.channels (peers n') !! "10.0.0.2:9000" = Some 0.
Proof.
  destruct (dial_releases_entry "10.0.0.3:9000" 1 sampleNode)
    as (Hany & _ & Henc & _).
  destruct (Henc connToC m1 "broken pipe") as (n' & Hd & _).
  destruct (Hany (DialEncoding "10.0.0.3:9000" 1 connToC m1)
              (EncodeErr "broken pipe") n' eq_refl Hd) as [Hgone Hrest].
  exists n'. split_and!; [exact Hd | exact Hgone |].
  rewrite Hrest; [reflexivity | discriminate].
Defined.

(* ===================================================================== *)
(** ** The registry and its dialers stay in step *)
(* ===================================================================== *)

Section registry_invariant.
Implicit Types (p : Peers.t) (ds : list DialPC) (pc : DialPC)
  (addr a : string) (ch k : nat) (q : Chan).

Lemma RegistryInv_init : RegistryInv (Peers.mk ∅ []) [].
Proof. by split. Qed.

Lemma owned_lt p ds k pc addr ch :
  RegistryInv p ds → ds !! k = Some pc → owns pc = Some (addr, ch) →
  ch < length (Peers.heap p).
Proof.
  intros HI Hk Ho. destruct (inv_own _ _ HI k pc addr ch Hk Ho) as (_ & q & Hq & _).
  by eapply lookup_lt_Some.
Qed.

(** Two owners of one address are one goroutine. *)
Lemma owner_unique p ds k k' pc pc' addr ch ch' :
  RegistryInv p ds → ds !! k = Some pc → ds !! k' = Some pc' →
  owns pc = Some (addr, ch) → owns pc' = Some (addr, ch') → k = k'.
Proof.
  intros HI Hk Hk' Ho Ho'.
  destruct (inv_own _ _ HI k pc addr ch Hk Ho) as [H1 _].
  destruct (inv_own _ _ HI k' pc' addr ch' Hk' Ho') as [H2 _].
  assert (ch = ch') as <- by congruence.
  by eapply (inv_uniq _ _ HI k k').
Qed.

(** The registry holds every channel under one address only, so the
    snapshot lists every channel once. *)
Lemma registry_injective p ds a a' ch :
  RegistryInv p ds →
  Peers.channels p !! a = Some ch → Peers.channels p !! a' = Some ch → a = a'.
Proof.
  intros HI Ha Ha'.
  destruct (inv_reg _ _ HI a ch Ha) as (k & pc & Hk & Ho).
  destruct (inv_reg _ _ HI a' ch Ha') as (k' & pc' & Hk' & Ho').
  assert (k = k') as <- by by eapply (inv_uniq _ _ HI k k').
  congruence.
Qed.

Lemma List_NoDup p ds : RegistryInv p ds → NoDup (Peers.List p).
Proof.
  intros HI. unfold Peers.List.
  apply NoDup_fmap_2_strong; [|apply NoDup_map_to_list].
  intros [a x] [a' x'] Hin Hin' Heq. simpl in Heq. subst x'.
  apply elem_of_map_to_list in Hin, Hin'.
  f_equal. by eapply registry_injective.
Qed.

(** A new goroutine that owns nothing. *)
Lemma RegistryInv_spawn p ds pc :
  owns pc = None → RegistryInv p ds → RegistryInv p (ds ++ [pc]).
Proof.
  intros Hn HI.
  assert (Hold : ∀ k pc0 a ch, (ds ++ [pc]) !! k = Some pc0 →
            owns pc0 = Some (a, ch) → ds !! k = Some pc0).
  { intros k pc0 a ch Hk Ho. apply lookup_app_Some in Hk as [Hk|[_ Hk]]; [done|].
    apply list_lookup_singleton_Some in Hk as [_ <-]. congruence. }
  split.
  - apply (inv_chan _ _ HI).
  - intros addr ch Hc. destruct (inv_reg _ _ HI addr ch Hc) as (k & pc0 & Hk & Ho).
    exists k, pc0. split; [|done]. by apply lookup_app_l_Some.
  - intros k pc0 addr ch Hk Ho. apply (inv_own _ _ HI k); [|done]. eauto.
  - intros k k' pc1 pc2 a a' ch Hk Hk' Ho Ho'.
    eapply (inv_uniq _ _ HI k k'); eauto.
Qed.

(** A goroutine moves to a control point that owns what it owned, and
    its channel is set to a state that fits. *)
Lemma RegistryInv_move p ds k pc pc' addr ch q q' :
  RegistryInv p ds → ds !! k = Some pc →
  owns pc = Some (addr, ch) → owns pc' = Some (addr, ch) →
  Peers.heap p !! ch = Some q →
  cap q' = 0 → buf q' = [] → recvFits pc' q' →
  RegistryInv (Peers.mk (Peers.channels p) (<[ch := q']> (Peers.heap p)))
    (<[k := pc']> ds).
Proof.
  intros HI Hk Ho Ho' Hq Hcap Hbuf Hfit.
  assert (Hlt : k < length ds) by by eapply lookup_lt_Some.
  assert (Hch : ch < length (Peers.heap p)) by by eapply lookup_lt_Some.
  assert (Hold : ∀ k0 pc0, <[k := pc']> ds !! k0 = Some pc0 →
            ∃ pc1, ds !! k0 = Some pc1 ∧ owns pc1 = owns pc0 ∧
                   (k0 ≠ k → pc1 = pc0) ∧ (k0 = k → pc0 = pc')).
  { intros k0 pc0 H0. apply list_lookup_insert_Some in H0
      as [(<- & <- & _)|[Hne H0]].
    - exists pc. split_and!; [done|congruence|done|done].
    - exists pc0. split_and!; [done|done|done|]. intros ->. done. }
  split; simpl.
  - intros x qx Hx. apply list_lookup_insert_Some in Hx
      as [(<- & <- & _)|[Hne Hx]]; [done|]. by apply (inv_chan _ _ HI x).
  - intros a x Hc. destruct (inv_reg _ _ HI a x Hc) as (k0 & pc0 & Hk0 & Ho0).
    destruct (decide (k0 = k)) as [->|Hne].
    + exists k, pc'. split; [by apply list_lookup_insert_eq|]. congruence.
    + exists k0, pc0. split; [by rewrite list_lookup_insert_ne|done].
  - intros k0 pc0 a x H0 Ho0.
    destruct (Hold k0 pc0 H0) as (pc1 & Hk1 & Ho1 & Hne & Heq).
    rewrite <- Ho1 in Ho0.
    destruct (inv_own _ _ HI k0 pc1 a x Hk1 Ho0) as (Hc & qx & Hqx & Hfx).
    split; [done|].
    destruct (decide (k0 = k)) as [->|Hk0].
    + assert (x = ch) as -> by congruence.
      exists q'. split; [by apply list_lookup_insert_eq|].
      by rewrite (Heq eq_refl).
    + assert (x ≠ ch).
      { intros ->. apply Hk0. by eapply (inv_uniq _ _ HI k0 k). }
      exists qx. split; [by rewrite list_lookup_insert_ne|].
      by rewrite <- (Hne Hk0).
  - intros k1 k2 pc1 pc2 a a' x H1 H2 Ho1 Ho2.
    destruct (Hold k1 pc1 H1) as (pc1' & Hk1 & E1 & _).
    destruct (Hold k2 pc2 H2) as (pc2' & Hk2 & E2 & _).
    rewrite <- E1 in Ho1. rewrite <- E2 in Ho2.
    by eapply (inv_uniq _ _ HI k1 k2).
Qed.

(** [Add] succeeded for the goroutine at [k]. *)
Lemma RegistryInv_register p ds k addr :
  RegistryInv p ds → ds !! k = Some (DialEntry addr) →
  Peers.channels p !! addr = None →
  RegistryInv
    (Peers.mk (<[addr := length (Peers.heap p)]> (Peers.channels p))
              (Peers.heap p ++ [makeChan]))
    (<[k := DialConnecting addr (length (Peers.heap p))]> ds).
Proof.
  intros HI Hk Hout.
  assert (Hlt : k < length ds) by by eapply lookup_lt_Some.
  split; simpl.
  - intros x qx Hx. apply lookup_app_Some in Hx as [Hx|[_ Hx]].
    + by apply (inv_chan _ _ HI x).
    + by apply list_lookup_singleton_Some in Hx as [_ <-].
  - intros a x Hc. apply lookup_insert_Some in Hc as [[<- <-]|[Hne Hc]].
    + exists k, (DialConnecting addr (length (Peers.heap p))).
      split; [by apply list_lookup_insert_eq|done].
    + destruct (inv_reg _ _ HI a x Hc) as (k0 & pc0 & Hk0 & Ho0).
      exists k0, pc0. split; [|done].
      rewrite list_lookup_insert_ne; [done|]. intros <-.
      rewrite Hk in Hk0. by injection Hk0 as <-.
  - intros k0 pc0 a x H0 Ho0. apply list_lookup_insert_Some in H0
      as [(<- & <- & _)|[Hne H0]].
    + injection Ho0 as <- <-. split; [apply lookup_insert_eq|].
      exists makeChan. split; [|done].
      by rewrite lookup_app_r, Nat.sub_diag.
    + destruct (inv_own _ _ HI k0 pc0 a x H0 Ho0) as (Hc & qx & Hqx & Hfx).
      split.
      * rewrite lookup_insert_ne; [done|]. intros <-. congruence.
      * exists qx. split; [by apply lookup_app_l_Some|done].
  - intros k1 k2 pc1 pc2 a a' x H1 H2 Ho1 Ho2.
    apply list_lookup_insert_Some in H1 as [(<- & <- & _)|[Hne1 H1]];
      apply list_lookup_insert_Some in H2 as [(<- & <- & _)|[Hne2 H2]].
    + done.
    + injection Ho1 as <- <-.
      pose proof (owned_lt _ _ _ _ _ _ HI H2 Ho2). lia.
    + injection Ho2 as <- <-.
      pose proof (owned_lt _ _ _ _ _ _ HI H1 Ho1). lia.
    + by eapply (inv_uniq _ _ HI k1 k2).
Qed.

(** The goroutine at [k] returns: [Remove] of its address. *)
Lemma RegistryInv_release p ds k pc addr ch :
  RegistryInv p ds → ds !! k = Some pc → owns pc = Some (addr, ch) →
  RegistryInv (Peers.Remove addr p) (<[k := DialReturned]> ds).
Proof.
  intros HI Hk Ho.
  assert (Hlt : k < length ds) by by eapply lookup_lt_Some.
  assert (Hold : ∀ k0 pc0 a x, <[k := DialReturned]> ds !! k0 = Some pc0 →
            owns pc0 = Some (a, x) → k0 ≠ k ∧ ds !! k0 = Some pc0 ∧ a ≠ addr).
  { intros k0 pc0 a x H0 Ho0. apply list_lookup_insert_Some in H0
      as [(<- & <- & _)|[Hne H0]]; [done|].
    split_and!; [done..|]. intros ->. apply Hne. symmetry.
    by eapply (owner_unique p ds k0 k). }
  split; simpl.
  - apply (inv_chan _ _ HI).
  - intros a x Hc. apply lookup_delete_Some in Hc as [Hne Hc].
    destruct (inv_reg _ _ HI a x Hc) as (k0 & pc0 & Hk0 & Ho0).
    exists k0, pc0. split; [|done].
    rewrite list_lookup_insert_ne; [done|]. intros <-. congruence.
  - intros k0 pc0 a x H0 Ho0.
    destruct (Hold k0 pc0 a x H0 Ho0) as (Hne & Hk0 & Ha).
    destruct (inv_own _ _ HI k0 pc0 a x Hk0 Ho0) as (Hc & Hq).
    split; [|done]. by rewrite lookup_delete_ne.
  - intros k1 k2 pc1 pc2 a a' x H1 H2 Ho1 Ho2.
    destruct (Hold k1 pc1 a x H1 Ho1) as (_ & Hk1 & _).
    destruct (Hold k2 pc2 a' x H2 Ho2) as (_ & Hk2 & _).
    by eapply (inv_uniq _ _ HI k1 k2).
Qed.

(** A goroutine that owns nothing returns or stays. *)
Lemma RegistryInv_idle p ds k pc pc' :
  RegistryInv p ds → ds !! k = Some pc → owns pc = None → owns pc' = None →
  RegistryInv p (<[k := pc']> ds).
Proof.
  intros HI Hk Ho Ho'.
  assert (Hold : ∀ k0 pc0 a x, <[k := pc']> ds !! k0 = Some pc0 →
            owns pc0 = Some (a, x) → k0 ≠ k ∧ ds !! k0 = Some pc0).
  { intros k0 pc0 a x H0 Ho0. apply list_lookup_insert_Some in H0
      as [(<- & <- & _)|[Hne H0]]; [congruence|done]. }
  split.
  - apply (inv_chan _ _ HI).
  - intros a x Hc. destruct (inv_reg _ _ HI a x Hc) as (k0 & pc0 & Hk0 & Ho0).
    exists k0, pc0. split; [|done].
    rewrite list_lookup_insert_ne; [done|]. intros <-. congruence.
  - intros k0 pc0 a x H0 Ho0. destruct (Hold k0 pc0 a x H0 Ho0) as [_ Hk0].
    by apply (inv_own _ _ HI k0).
  - intros k1 k2 pc1 pc2 a a' x H1 H2 Ho1 Ho2.
    destruct (Hold k1 pc1 a x H1 Ho1) as (_ & Hk1).
    destruct (Hold k2 pc2 a' x H2 Ho2) as (_ & Hk2).
    by eapply (inv_uniq _ _ HI k1 k2).
Qed.

(** On an unbuffered, empty channel a send goes through only to a
    parked receiver, and a second one finds nobody. *)
Lemma trySend_unbuffered w q q' :
  cap q = 0 → buf q = [] → trySend w q = Some q' →
  recv q = Parked ∧ q' = mkChan 0 [] (Handed w).
Proof.
  intros Hc Hb. unfold trySend. rewrite Hc, Hb. simpl.
  destruct (recv q); try case_decide; try lia; try done.
  by intros [= <-].
Qed.

(** What the loop of [broadcast] does to the channels. *)
Lemma RegistryInv_sends p ds w l : ∀ h,
  RegistryInv (Peers.mk (Peers.channels p) h) ds →
  RegistryInv (Peers.mk (Peers.channels p) (broadcastTo l w h).1) ds.
Proof.
  induction l as [|x l IH]; intros h HI; simpl; [done|].
  destruct (h !! x) as [q|] eqn:Hx; simpl.
  - destruct (trySend w q) as [q'|] eqn:Hs.
    + specialize (IH (<[x := q']> h)).
      destruct (broadcastTo l w (<[x := q']> h)); simpl in *. apply IH.
      destruct (inv_chan _ _ HI x q Hx) as [Hc Hb].
      destruct (trySend_unbuffered w q q' Hc Hb Hs) as [Hp ->].
      split; simpl.
      * intros y qy Hy. apply list_lookup_insert_Some in Hy
          as [(<- & <- & _)|[Hne Hy]]; [done|]. by apply (inv_chan _ _ HI y).
      * apply (inv_reg _ _ HI).
      * intros k pc a y Hk Ho.
        destruct (inv_own _ _ HI k pc a y Hk Ho) as (Hch & qy & Hy & Hf).
        split; [done|]. simpl in *.
        destruct (decide (y = x)) as [->|Hne].
        -- exists (mkChan 0 [] (Handed w)).
           split; [apply list_lookup_insert_eq; by eapply lookup_lt_Some|].
           assert (qy = q) as -> by congruence.
           destruct pc; simpl in *; congruence.
        -- exists qy. by rewrite list_lookup_insert_ne.
      * apply (inv_uniq _ _ HI).
    + specialize (IH h HI). by destruct (broadcastTo l w h).
  - specialize (IH h HI). by destruct (broadcastTo l w h).
Qed.

End registry_invariant.

(* ===================================================================== *)
(** ** Counting broadcasts *)
(* ===================================================================== *)

Section counting.
Implicit Types (id : string) (t : list Event) (e : Event).

Lemma broadcasts_app id t1 t2 :
  broadcasts id (t1 ++ t2) = broadcasts id t1 + broadcasts id t2.
Proof. unfold broadcasts. by rewrite filter_app, length_app. Qed.

Lemma broadcasts_cons id e t :
  broadcasts id (e :: t)
  = (if isBroadcastOf id e then 1 else 0) + broadcasts id t.
Proof.
  unfold broadcasts. rewrite filter_cons.
  destruct (isBroadcastOf id e) eqn:E; by case_decide.
Qed.

Lemma broadcasts_nil id : broadcasts id [] = 0.
Proof. reflexivity. Qed.

Lemma broadcasts_selects id l w : ∀ h, broadcasts id (broadcastTo l w h).2 = 0.
Proof.
  induction l as [|x l IH]; intros h; simpl; [done|].
  destruct (h !! x ≫= trySend w) as [c|].
  - specialize (IH (<[x := c]> h)).
    destruct (broadcastTo l w (<[x := c]> h)); simpl in *.
    by rewrite broadcasts_cons.
  - specialize (IH h). destruct (broadcastTo l w h); simpl in *.
    by rewrite broadcasts_cons.
Qed.

Lemma originations_cons id i ins :
  originations id (i :: ins)
  = (if isOrigination id i then 1 else 0) + originations id ins.
Proof.
  unfold originations. rewrite filter_cons.
  destruct (isOrigination id i) eqn:E; by case_decide.
Qed.

(** With only [true] stored, an answer [false] means the id is new. *)
Lemma SeenId_false_None (m : gmap string bool) id :
  marked m → (SeenId id m).1 = false → m !! id = None.
Proof.
  intros Hm. unfold SeenId; simpl.
  destruct (m !! id) as [b|] eqn:E; [|done].
  rewrite (Hm _ _ E). done.
Qed.

Lemma marked_insert (m : gmap string bool) id :
  marked m → marked (<[id := true]> m).
Proof. apply (marked_SeenId m id). Qed.

End counting.

(* ===================================================================== *)
(** ** Every step keeps the invariant *)
(* ===================================================================== *)

(** Counts the broadcasts of a trace given as a concatenation. *)
Ltac count_trace :=
  intros;
  rewrite ?broadcasts_app, ?broadcasts_cons, ?broadcasts_nil,
    ?broadcasts_selects;
  simpl; try lia.

Section steps.
Implicit Types (n : Node) (pc : DialPC) (e : DialIn) (k : nat).

Lemma set_dialers_same n k pc :
  dialers n !! k = Some pc → set_dialers (<[k := pc]>) n = n.
Proof.
  intros Hk. destruct n; unfold set_dialers; simpl in *.
  by rewrite list_insert_id.
Qed.

(** The step left the goroutine where it was and the process as it was. *)
Ltac stay Hd Hk :=
  simpl in Hd; injection Hd as <- <-;
  rewrite (set_dialers_same _ _ _ Hk); split_and!; done.

(** Under the invariant the head of the range loop always parks. *)
Lemma rangeNext_parks n addr ch c q :
  Peers.heap (peers n) !! ch = Some q → buf q = [] →
  rangeNext addr ch c n
  = Ok (DialRanging addr ch c,
        set_peers (λ p, Peers.mk (Peers.channels p)
                          (<[ch := mkChan (cap q) [] Parked]> (Peers.heap (peers n))))
          n).
Proof. intros Hq Hb. unfold rangeNext. by rewrite Hq, Hb. Qed.

(** What one step of the [k]-th dialing goroutine does to the process. *)
Lemma dial_sound k pc e n pc' n' :
  invariant n → dialers n !! k = Some pc →
  dial pc e n = Ok (pc', n') →
  invariant (set_dialers (<[k := pc']>) n') ∧
  host n' = host n ∧ localInfo n' = localInfo n ∧
  seenIds n' = seenIds n ∧
  ∀ id, broadcasts id (trace n') = broadcasts id (trace n).
Proof.
  intros Hinv Hk Hd. pose proof Hinv as [HI Hm (me & Hme & Hl)].
  destruct pc as [addr|addr ch|addr ch c|addr ch c s|].
  - (* not yet run *)
    destruct e; try (by stay Hd Hk).
    destruct (decide (addr = me)) as [->|Hne].
    { rewrite (dial_self n me Hme) in Hd. injection Hd as <- <-.
      split_and!; try done. split; simpl; eauto.
      by eapply RegistryInv_idle. }
    destruct (Peers.channels (peers n) !! addr) as [x|] eqn:Hin.
    { rewrite (dial_taken n me addr Hme Hne) in Hd by eauto.
      injection Hd as <- <-. split_and!; try done. split; simpl; eauto.
      by eapply RegistryInv_idle. }
    rewrite (dial_fresh n me addr Hme Hne Hin) in Hd.
    injection Hd as <- <-. simpl. split_and!; try done.
    + split; simpl; [by apply RegistryInv_register|done|].
      exists me. split; [done|]. by rewrite lookup_insert_ne.
    + count_trace.
  - (* connecting *)
    destruct (inv_own _ _ HI k _ addr ch Hk eq_refl) as (Hc & q & Hq & Hf).
    destruct (inv_chan _ _ HI ch q Hq) as [Hcap Hbuf].
    destruct e; try (by stay Hd Hk).
    + revert Hd. unfold dial, statusLn, emit, update, bind.
      rewrite (rangeNext_parks _ addr ch c q) by done.
      intros [= <- <-]. simpl. split_and!; try done.
      * split; simpl; [|done|eauto].
        by eapply (RegistryInv_move (peers n) (dialers n) k).
      * count_trace.
    + rewrite dial_connect_failed in Hd. injection Hd as <- <-. simpl.
      split_and!; try done.
      * split; simpl; [by eapply RegistryInv_release|done|].
        exists me. split; [done|]. apply lookup_delete_None. eauto.
      * count_trace.
  - (* in the range *)
    destruct (inv_own _ _ HI k _ addr ch Hk eq_refl) as (Hc & q & Hq & Hf).
    destruct (inv_chan _ _ HI ch q Hq) as [Hcap Hbuf].
    destruct e; try (by stay Hd Hk).
    + revert Hd. unfold dial, takeHanded, bind, ret. rewrite Hq.
      destruct (recv q) as [| |s] eqn:Hr.
      * intros Hd. by stay Hd Hk.
      * intros Hd. by stay Hd Hk.
      * intros [= <- <-]. simpl. split_and!; try done.
        split; simpl; [|done|eauto].
        by eapply (RegistryInv_move (peers n) (dialers n) k).
    + rewrite dial_range_ended in Hd. injection Hd as <- <-. simpl.
      split_and!; try done.
      * split; simpl; [by eapply RegistryInv_release|done|].
        exists me. split; [done|]. apply lookup_delete_None. eauto.
      * count_trace.
  - (* encoding *)
    destruct (inv_own _ _ HI k _ addr ch Hk eq_refl) as (Hc & q & Hq & Hf).
    destruct (inv_chan _ _ HI ch q Hq) as [Hcap Hbuf].
    destruct e; try (by stay Hd Hk).
    + revert Hd. unfold dial, statusLn, emit, update, bind.
      rewrite (rangeNext_parks _ addr ch c q) by done.
      intros [= <- <-]. simpl. split_and!; try done.
      * split; simpl; [|done|eauto].
        by eapply (RegistryInv_move (peers n) (dialers n) k).
      * count_trace.
    + rewrite dial_encode_failed in Hd. injection Hd as <- <-. simpl.
      split_and!; try done.
      * split; simpl; [by eapply RegistryInv_release|done|].
        exists me. split; [done|]. apply lookup_delete_None. eauto.
      * count_trace.
  - (* returned *)
    destruct e; by stay Hd Hk.
Qed.

Lemma invariant_set_servers n f : invariant n → invariant (set_servers f n).
Proof. intros [? ? ?]. by split. Qed.

Lemma invariant_set_trace n f : invariant n → invariant (set_trace f n).
Proof. intros [? ? ?]. by split. Qed.

Lemma invariant_set_nicknames n f : invariant n → invariant (set_nicknames f n).
Proof. intros [? ? ?]. by split. Qed.

Lemma invariant_goDial n addr :
  invariant n → invariant (set_dialers (λ l, l ++ [DialEntry addr]) n).
Proof.
  intros [HI ? ?]. split; simpl; [|done..]. by apply RegistryInv_spawn.
Qed.

Lemma invariant_broadcast n w :
  invariant n →
  invariant
    (mkNode (host n) (localInfo n)
       (Peers.mk (Peers.channels (peers n))
          (broadcastTo (Peers.List (peers n)) w (Peers.heap (peers n))).1)
       (seenIds n) (nicknames n) (dialers n) (servers n)
       (trace n ++ Broadcast w
          :: (broadcastTo (Peers.List (peers n)) w (Peers.heap (peers n))).2)).
Proof.
  intros [HI ? ?]. split; simpl; [|done..].
  apply RegistryInv_sends. by destruct (peers n).
Qed.

(** One turn of a serve loop. *)
Lemma serveIncoming_sound (spc spc' : ServePC) d n n' :
  invariant n → serveIncoming spc d n = Ok (spc', n') →
  invariant n' ∧ host n' = host n ∧ localInfo n' = localInfo n ∧
  ∀ id, budget id n' ≤ budget id n.
Proof.
  intros Hinv Hs. pose proof Hinv as [HI Hm (me & Hme & Hl)].
  destruct spc as [[c|] whisper|]; [| |by injection Hs as <- <-].
  2: { revert Hs. unfold serveIncoming, panic. by destruct d. }
  destruct d as [o|].
  - destruct (SeenId (ID (decodeInto o whisper)) (seenIds n)).1 eqn:Hseen.
    + rewrite serveIncoming_seen in Hs by done. injection Hs as <- <-.
      split_and!; try done.
      * split; simpl; [done| |eauto]. by apply marked_insert.
      * intros id. unfold budget, set_seenIds; cbn [trace seenIds].
        destruct (decide (ID (decodeInto o whisper) = id)) as [<-|Hne].
        -- rewrite lookup_insert_eq. lia.
        -- by rewrite lookup_insert_ne.
    + pose proof (serveIncoming_new c whisper o n me Hseen Hme) as Hnew.
      cbv zeta in Hnew. rewrite Hnew in Hs. clear Hnew.
      injection Hs as <- <-. split_and!; try done.
      * pose proof (invariant_broadcast n (decodeInto o whisper) Hinv)
          as [HI' _ _]. simpl in HI'.
        split; simpl; [by apply RegistryInv_spawn|by apply marked_insert|eauto].
      * intros id. unfold budget; cbn [trace seenIds].
        apply SeenId_false_None in Hseen; [|done].
        rewrite !broadcasts_app, !broadcasts_cons, broadcasts_nil,
          broadcasts_selects. cbn [isBroadcastOf].
        destruct (decide (ID (decodeInto o whisper) = id)) as [<-|Hne].
        -- rewrite lookup_insert_eq, Hseen.
           rewrite bool_decide_eq_true_2 by done. lia.
        -- rewrite lookup_insert_ne by done.
           rewrite bool_decide_eq_false_2 by done. lia.
  - revert Hs. unfold serveIncoming. unfold_M. intros [= <- <-].
    split_and!; try done; [by do 2 apply invariant_set_trace|].
    intros id. unfold budget; simpl. count_trace.
Qed.

(** One turn of the scanner. *)
Lemma startInputScanner_sound text idNow stamp n n' :
  invariant n → startInputScanner text idNow stamp n = Ok ((), n') →
  invariant n' ∧ host n' = host n ∧ localInfo n' = localInfo n ∧
  ∀ id, budget id n'
        ≤ budget id n
          + (if isOrigination id (Typed text idNow stamp) then 1 else 0).
Proof.
  intros Hinv Hs. pose proof Hinv as [HI Hm (me & Hme & Hl)].
  unfold startInputScanner in Hs. unfold isOrigination.
  destruct (decide (String.length text = 0)) as [Hlen|Hlen].
  { injection Hs as <-. split_and!; try done. intros; lia. }
  rewrite (bool_decide_eq_true_2 _ Hlen).
  destruct (String.prefix "/" text) eqn:Hpre.
  - (* a command *)
    assert (Hcmd : invariant n' ∧ host n' = host n ∧ localInfo n' = localInfo n
                   ∧ ∀ id, budget id n' = budget id n).
    { revert Hs. unfold handleCommand.
      destruct (Split (ToLower (TrimSpace text)) !! 0) as [p0|]; [|done].
      case_decide.
      { destruct (Split (ToLower (TrimSpace text)) !! 1) as [p1|]; [|done].
        intros [= <-]. split_and!; try done. by apply invariant_goDial. }
      case_decide; [|by intros [= <-]].
      destruct (Split (ToLower (TrimSpace text))) as [|? [|p1 [|p2 [|? ?]]]];
        try (by intros [= <-]).
      unfold_M. intros [= <-]. split_and!; try done.
      - by apply invariant_set_trace, invariant_set_nicknames.
      - intros id. unfold budget; simpl. count_trace. }
    destruct Hcmd as (? & ? & ? & Hb). split_and!; try done.
    intros id. rewrite Hb. lia.
  - (* a message *)
    revert Hs. unfold bind, localAddr. rewrite Hme.
    rewrite broadcast_Ok. intros [= <-]. split_and!; try done.
    + by apply invariant_broadcast.
    + intros id. unfold budget; simpl. count_trace.
Qed.

(** A step of the accept loop that the process survives accepted a
    connection. *)
Lemma step_Accepted r n n' :
  step (Accepted r) n = Ok ((), n') →
  ∃ con, r = AcceptOk con ∧ acceptLoop r n = Ok ((), n').
Proof.
  destruct r as [con|err]; unfold step, acceptLoop; unfold_M.
  - intros [= <-]. by exists con.
  - done.
Qed.

(** One turn of the accept loop. *)
Lemma acceptLoop_sound r n n' :
  invariant n → acceptLoop r n = Ok ((), n') →
  invariant n' ∧ host n' = host n ∧ localInfo n' = localInfo n ∧
  ∀ id, budget id n' = budget id n.
Proof.
  intros Hinv. destruct r; unfold_M; intros [= <-].
  - split_and!; try done. by apply invariant_set_servers.
  - split_and!; try done.
    + by apply invariant_set_servers, invariant_set_trace.
    + intros id. unfold budget; simpl. count_trace.
Qed.

Lemma step_sound i n n' :
  invariant n → step i n = Ok ((), n') →
  invariant n' ∧ host n' = host n ∧ localInfo n' = localInfo n ∧
  ∀ id, budget id n' ≤ budget id n + (if isOrigination id i then 1 else 0).
Proof.
  intros Hinv Hs. destruct i as [text idNow stamp|r|k d|k e]; simpl in Hs.
  - by apply startInputScanner_sound.
  - apply step_Accepted in Hs as (con & -> & Hs).
    destruct (acceptLoop_sound _ n n' Hinv Hs) as (? & ? & ? & Hb).
    split_and!; try done. intros id. rewrite Hb. simpl. lia.
  - destruct (servers n !! k) as [spc|] eqn:Hk.
    2: { injection Hs as <-. split_and!; try done. intros; simpl; lia. }
    revert Hs. unfold bind.
    destruct (serveIncoming spc d n) as [[spc' n1]| |] eqn:Hserve; [|done..].
    intros [= <-].
    destruct (serveIncoming_sound spc spc' d n n1 Hinv Hserve)
      as (? & ? & ? & Hb).
    split_and!; try done; [by apply invariant_set_servers|].
    intros id. specialize (Hb id). unfold budget in *. simpl in *. lia.
  - destruct (dialers n !! k) as [pc|] eqn:Hk.
    2: { injection Hs as <-. split_and!; try done. intros; simpl; lia. }
    revert Hs. unfold bind.
    destruct (dial pc e n) as [[pc' n1]| |] eqn:Hdial; [|done..].
    intros [= <-].
    destruct (dial_sound k pc e n pc' n1 Hinv Hk Hdial)
      as (? & ? & ? & Hseen & Hb).
    split_and!; try done.
    intros id. unfold budget. simpl. rewrite Hseen, Hb. lia.
Qed.

Lemma run_sound ins : ∀ n n',
  invariant n → run ins n = Ok n' →
  invariant n' ∧ host n' = host n ∧ localInfo n' = localInfo n ∧
  ∀ id, budget id n' ≤ budget id n + originations id ins.
Proof.
  induction ins as [|i ins IH]; intros n n' Hinv Hr; simpl in Hr.
  - injection Hr as <-. split_and!; try done. intros; lia.
  - destruct (step i n) as [[[] n1]| |] eqn:Hs; [|done..].
    destruct (step_sound i n n1 Hinv Hs) as (Hinv1 & Hh & Hl & Hb).
    destruct (IH n1 n' Hinv1 Hr) as (? & Hh' & Hl' & Hb').
    split_and!; [done|congruence|congruence|].
    intros id. rewrite originations_cons.
    specialize (Hb id). specialize (Hb' id). lia.
Qed.

(** After start-up nothing is registered, seen or broadcast. *)
Lemma main_sound h port listen n :
  main h port listen = Ok n →
  invariant n ∧ host n = h ∧ LocalInfo.ListenPort (localInfo n) = port ∧
  ¬ String.length port < 4 ∧
  (∀ id, budget id n = 1) ∧
  ∃ me, LocalInfo.Addr h (localInfo n) = Ok me.
Proof.
  unfold main. case_decide as Hport; [done|].
  destruct listen as [laddr|err]; [|done].
  unfold_M. simpl.
  destruct (LocalInfo.Addr h (LocalInfo.mk "" port)) as [me| |] eqn:Hme;
    [|done..].
  intros [= <-]. simpl. split_and!; try done.
  - split; simpl; [apply RegistryInv_init|apply marked_empty|eauto].
  - eauto.
Qed.

Lemma reachable_invariant h n :
  reachable h n → invariant n ∧ host n = h.
Proof.
  intros (port & listen & n0 & ins & Hmain & Hrun).
  destruct (main_sound h port listen n0 Hmain) as (Hinv & Hh & _).
  destruct (run_sound ins n0 n Hinv Hrun) as (? & ? & _).
  split; [done|congruence].
Qed.

Lemma bootAndRun_reachable h ins n : bootAndRun h ins = Ok n → reachable h n.
Proof.
  unfold bootAndRun.
  destruct (main h "9000" (inl "[::]:9000")) as [n0| |] eqn:Hmain; [|done..].
  intros Hrun. by exists "9000", (inl "[::]:9000"), n0, ins.
Qed.

Lemma Sent_in_attempts w h l ch :
  Sent ch w ∈ map (attempt w h) l ↔ ch ∈ l ∧ attempt w h ch = Sent ch w.
Proof.
  rewrite list_elem_of_fmap. split.
  - intros (x & Hx & Hin). destruct (attempt_shape w h x) as [E|E];
      rewrite E in Hx; [|done]. injection Hx as ->. done.
  - intros [Hin E]. eauto.
Qed.

Lemma Dropped_in_attempts w h l ch :
  Dropped ch w ∈ map (attempt w h) l ↔ ch ∈ l ∧ attempt w h ch = Dropped ch w.
Proof.
  rewrite list_elem_of_fmap. split.
  - intros (x & Hx & Hin). destruct (attempt_shape w h x) as [E|E];
      rewrite E in Hx; [done|]. injection Hx as ->. done.
  - intros [Hin E]. eauto.
Qed.

Lemma nodeA_run : bootAndRun hostA scriptA = Ok nodeA.
Proof. vm_compute. reflexivity. Qed.

Lemma nodeB_run : bootAndRun hostB scriptB = Ok nodeB.
Proof. vm_compute. reflexivity. Qed.

Lemma nodeBusy_run : bootAndRun hostA scriptBusy = Ok nodeBusy.
Proof. vm_compute. reflexivity. Qed.

Lemma scriptAcceptErr_run :
  bootAndRun hostA scriptAcceptErr
  = Panic "invalid memory address or nil pointer dereference".
Proof. vm_compute. reflexivity. Qed.

Lemma nodeA_addr :
  LocalInfo.Addr (host nodeA) (localInfo nodeA) = Ok "10.0.0.1:9000".
Proof. vm_compute. reflexivity. Qed.

Lemma nodeA_redial : dialers nodeA !! 1 = Some (DialEntry "10.0.0.1:9000").
Proof. vm_compute. reflexivity. Qed.

Lemma nodeBusy_registered :
  Peers.channels (peers nodeBusy) !! "10.0.0.2:9000" = Some 0.
Proof. vm_compute. reflexivity. Qed.

Lemma nodeBusy_dialer :
  dialers nodeBusy !! 0
  = Some (DialEncoding "10.0.0.2:9000" 0 connToB typedHi).
Proof. vm_compute. reflexivity. Qed.

Lemma sampleNode_List : Peers.List (peers sampleNode) = [1; 0].
Proof. vm_compute. reflexivity. Qed.

Lemma List_elem p addr ch :
  Peers.channels p !! addr = Some ch → ch ∈ Peers.List p.
Proof.
  intros Hc. unfold Peers.List. apply list_elem_of_fmap.
  exists (addr, ch). split; [done|]. by apply elem_of_map_to_list.
Qed.

End steps.

(** C7. [dial] of the local address returns at once and leaves the whole
    process state as it was: no [Add], no [Remove], no connection, nothing
    printed.  As the only [Add] of the program is the one behind that
    guard, no state the process reaches has a registry entry under the
    local address, nor a dialing goroutine that owns one. *)
Theorem dial_never_self (h : Host) (n : Node) (me : string) :
  LocalInfo.Addr (host n) (localInfo n) = Ok me →
  dial (DialEntry me) Scheduled n = Ok (DialReturned, n) ∧
  (∀ k, dialers n !! k = Some (DialEntry me) →
     step (Dial k Scheduled) n
     = Ok ((), set_dialers (<[k := DialReturned]>) n)) ∧
  (reachable h n →
     Peers.channels (peers n) !! me = None ∧
     ∀ k pc ch, dialers n !! k = Some pc → owns pc ≠ Some (me, ch)).
Proof.
  intros Hme. split_and!.
  - by apply dial_self.
  - intros k Hk. simpl. rewrite Hk. unfold bind.
    by rewrite (dial_self n me Hme).
  - intros Hr. destruct (reachable_invariant h n Hr) as [[HI _ (me' & Hme' & Hl)] _].
    assert (me' = me) as -> by congruence.
    split; [done|]. intros k pc ch Hk Ho.
    destruct (inv_own _ _ HI k pc me ch Hk Ho) as [Hc _]. congruence.
Qed.

Lemma dial_never_self_witness :
  bootAndRun hostA scriptA = Ok nodeA ∧
  dialers nodeA !! 1 = Some (DialEntry "10.0.0.1:9000") ∧
  dial (DialEntry "10.0.0.1:9000") Scheduled nodeA = Ok (DialReturned, nodeA) ∧
  Peers.channels (peers nodeA) !! "10.0.0.1:9000" = None.
Proof.
  pose proof (bootAndRun_reachable _ _ _ nodeA_run) as Hreach.
  destruct (dial_never_self hostA nodeA "10.0.0.1:9000" nodeA_addr)
    as (Hd & _ & Hinv).
  split_and!;
    [exact nodeA_run | exact nodeA_redial | exact Hd
    | exact (proj1 (Hinv Hreach))].
Defined.

(** C9. [Add] makes every delivery channel without buffer, and no channel
    the process ever holds has one.  So for a registered peer the select
    of [broadcast] takes the send case exactly when the peer's dialing
    goroutine is parked in the receive of its range loop; while that
    goroutine is in [Encode] (or still connecting, or has been handed a
    value it has not taken yet) the select takes the default case, and
    the message is dropped for that peer and its channel is as before. *)
Theorem unbuffered_delivery (h : Host) (n : Node) (addr : string) (ch : nat) :
  reachable h n →
  Peers.channels (peers n) !! addr = Some ch →
  (∀ a p c, (Peers.Add a p).1 = Some c →
     Peers.heap (Peers.Add a p).2 !! c = Some (mkChan 0 [] Idle)) ∧
  (∀ x qx, Peers.heap (peers n) !! x = Some qx → cap qx = 0 ∧ buf qx = []) ∧
  ∃ q k pc,
    Peers.heap (peers n) !! ch = Some q ∧ cap q = 0 ∧ buf q = [] ∧
    dialers n !! k = Some pc ∧ owns pc = Some (addr, ch) ∧
    (∀ k' pc' ch', dialers n !! k' = Some pc' →
       owns pc' = Some (addr, ch') → k' = k) ∧
    ∀ w, ∃ n' evs,
      broadcast w n = Ok ((), n') ∧
      trace n' = trace n ++ Broadcast w :: evs ∧
      (Sent ch w ∈ evs ↔ (∃ c, pc = DialRanging addr ch c) ∧ recv q = Parked) ∧
      (Dropped ch w ∈ evs ↔ ¬ ((∃ c, pc = DialRanging addr ch c) ∧ recv q = Parked)) ∧
      ((∃ c s, pc = DialEncoding addr ch c s) →
         Dropped ch w ∈ evs ∧ (Sent ch w ∉ evs) ∧
         Peers.heap (peers n') !! ch = Some q).
Proof.
  intros Hr Hc.
  destruct (reachable_invariant h n Hr) as [[HI _ _] _].
  split_and!.
  - intros a p c. unfold Peers.Add.
    destruct (Peers.channels p !! a); simpl; [done|]. intros [= <-].
    by rewrite lookup_app_r, Nat.sub_diag.
  - apply (inv_chan _ _ HI).
  - destruct (inv_reg _ _ HI addr ch Hc) as (k & pc & Hk & Ho).
    destruct (inv_own _ _ HI k pc addr ch Hk Ho) as (_ & q & Hq & Hfit).
    destruct (inv_chan _ _ HI ch q Hq) as [Hcap Hbuf].
    exists q, k, pc. split_and!; try done.
    { intros k' pc' ch' Hk' Ho'. by eapply (owner_unique _ _ k' k). }
    intros w. eexists _, _. split; [apply broadcast_Ok|]. simpl.
    split; [done|].
    pose proof (List_NoDup _ _ HI) as Hnd.
    pose proof (List_elem _ _ _ Hc) as Hin.
    rewrite (broadcastTo_events _ _ _ Hnd).
    rewrite Sent_in_attempts, Dropped_in_attempts.
    assert (Hready : attempt w (Peers.heap (peers n)) ch = Sent ch w
                     ↔ (∃ c, pc = DialRanging addr ch c) ∧ recv q = Parked).
    { rewrite attempt_Sent. split.
      - intros (q' & Hq' & [Hp|Hlt]).
        + assert (q' = q) as -> by congruence. split; [|done].
          destruct pc; simpl in *; try congruence.
          injection Ho as -> ->. eauto.
        + assert (q' = q) as -> by congruence. rewrite Hcap, Hbuf in Hlt.
          simpl in Hlt. lia.
      - intros [_ Hp]. exists q. split; [done|]. by left. }
    split_and!.
    + rewrite <- Hready. tauto.
    + rewrite <- Hready.
      destruct (attempt_shape w (Peers.heap (peers n)) ch) as [E|E];
        rewrite E.
      * split; [by intros [_ [=]] | intros Hn; by destruct Hn].
      * split; [by intros _ [=] | done].
    + intros (c & s & ->).
      assert (Hnot : attempt w (Peers.heap (peers n)) ch ≠ Sent ch w).
      { rewrite Hready. by intros [(c' & [=]) _]. }
      split_and!.
      * done.
      * by destruct (attempt_shape w (Peers.heap (peers n)) ch).
      * tauto.
      * rewrite (broadcastTo_lookup _ _ _ _ Hnd).
        rewrite decide_True by done. unfold afterAttempt.
        unfold attempt in Hnot.
        by destruct (Peers.heap (peers n) !! ch ≫= trySend w).
Qed.

Lemma unbuffered_delivery_witness :
  ∃ n',
    bootAndRun hostA scriptBusy = Ok nodeBusy ∧
    dialers nodeBusy !! 0
    = Some (DialEncoding "10.0.0.2:9000" 0 connToB typedHi) ∧
    broadcast m1 nodeBusy = Ok ((), n') ∧
    Dropped 0 m1 ∈ trace n'.
Proof.
  pose proof (bootAndRun_reachable _ _ _ nodeBusy_run) as Hreach.
  pose proof nodeBusy_registered as Hc. pose proof nodeBusy_dialer as Hd.
  destruct (unbuffered_delivery hostA nodeBusy "10.0.0.2:9000" 0 Hreach Hc)
    as (_ & _ & q & k & pc & _ & _ & _ & Hk & _ & Huniq & Hsend).
  assert (0 = k) as <- by exact (Huniq 0 _ 0 Hd eq_refl).
  rewrite Hd in Hk. injection Hk as <-.
  destruct (Hsend m1) as (n' & evs & Hb & Htr & _ & _ & Hbusy).
  destruct Hbusy as (Hdrop & _); [by eexists _, _|].
  exists n'. split_and!; [exact nodeBusy_run | exact Hd | exact Hb |].
  rewrite Htr. apply elem_of_app. right. apply elem_of_cons. by right.
Defined.

Lemma sampleNode_handle_0 : 0 ∈ Peers.List (peers sampleNode).
Proof. rewrite sampleNode_List. apply elem_of_cons. right. by left. Qed.

Lemma sampleNode_handle_1 : 1 ∈ Peers.List (peers sampleNode).
Proof. rewrite sampleNode_List. by left. Qed.

Lemma broadcast_one_attempt_per_handle_witness :
  ∃ n',
    broadcast m1 sampleNode = Ok ((), n') ∧
    trace n' = [Broadcast m1; Dropped 1 m1; Sent 0 m1] ∧
    Peers.channels (peers n') = Peers.channels (peers sampleNode) ∧
    seenIds n' = seenIds sampleNode ∧
    Peers.heap (peers n') !! 0 = Some (mkChan 0 [] (Handed m1)) ∧
    Peers.heap (peers n') !! 1 = Some (mkChan 0 [] Idle).
Proof.
  destruct (broadcast_one_attempt_per_handle m1 sampleNode)
    as (n' & evs & Hb & Htr & _ & Hnd & Hreg & Hseen & _).
  destruct Hnd as (Hevs & _ & _ & Hheap).
  { rewrite sampleNode_List. apply NoDup_cons. split; [|apply NoDup_singleton].
    intros [=]%list_elem_of_singleton. }
  exists n'. split_and!; [exact Hb | | exact Hreg | exact Hseen | |].
  - rewrite Htr, Hevs, sampleNode_List. reflexivity.
  - exact (Hheap 0 _ sampleNode_handle_0 eq_refl).
  - exact (Hheap 1 _ sampleNode_handle_1 eq_refl).
Defined.

(* ===================================================================== *)
(** ** How often a node broadcasts one message *)
(* ===================================================================== *)

(** C2, as the code has it.  A node broadcasts a message it receives at
    most once per id, whatever the peer graph sends it and however often:
    the first copy puts the id in the cache and every later copy is
    dropped.  A message the node originates is broadcast without its id
    being put in the cache, so the first copy that comes back is handled
    as new.  In all, the broadcasts of an id at a node are at most its
    originations of that id plus one; a node that did not originate the
    id broadcasts it at most once. *)
Theorem broadcasts_bounded
    (h : Host) (port : string) (listen : string + string)
    (n0 n : Node) (ins : list Input) (id : string) :
  main h port listen = Ok n0 →
  run ins n0 = Ok n →
  broadcasts id (trace n) ≤ originations id ins + 1 ∧
  (originations id ins = 0 → broadcasts id (trace n) ≤ 1) ∧
  (is_Some (seenIds n !! id) ∨ broadcasts id (trace n) ≤ originations id ins) ∧
  ∀ more n', run more n = Ok n' → is_Some (seenIds n !! id) →
    broadcasts id (trace n') ≤ broadcasts id (trace n) + originations id more.
Proof.
  intros Hmain Hrun.
  destruct (main_sound h port listen n0 Hmain) as (Hinv0 & _ & _ & _ & Hb0 & _).
  destruct (run_sound ins n0 n Hinv0 Hrun) as (Hinv & _ & _ & Hb).
  specialize (Hb id). rewrite Hb0 in Hb. unfold budget in Hb.
  split_and!.
  - lia.
  - intros Hz. lia.
  - destruct (seenIds n !! id); [eauto | right; lia].
  - intros more n' Hmore [b Hseen].
    destruct (run_sound more n n' Hinv Hmore) as (_ & _ & _ & Hb').
    specialize (Hb' id). unfold budget in Hb'. rewrite Hseen in Hb'. lia.
Qed.

Lemma broadcasts_bounded_witness :
  bootAndRun hostB scriptB = Ok nodeB ∧
  originations (ID typedHi) scriptB = 0 ∧
  broadcasts (ID typedHi) (trace nodeB) ≤ 1.
Proof.
  split; [exact nodeB_run|]. split; [reflexivity|].
  pose proof nodeB_run as Hrun. unfold bootAndRun in Hrun.
  destruct (main hostB "9000" (inl "[::]:9000")) as [n0| |] eqn:Hmain;
    [|discriminate Hrun..].
  destruct (broadcasts_bounded hostB "9000" (inl "[::]:9000") n0 nodeB scriptB
              (ID typedHi) Hmain Hrun) as (_ & Hone & _).
  apply Hone. reflexivity.
Defined.

(** C2, as stated, does not hold: in the two-node cycle A - B, node A
    originates the line [hi], B floods it back toward A, and A prints it
    (under the label [you]) and broadcasts it a second time. *)
Lemma originator_floods_again :
  bootAndRun hostA scriptA = Ok nodeA ∧
  bootAndRun hostB scriptB = Ok nodeB ∧
  Wrote connToB (encode typedHi) ∈ trace nodeA ∧
  Wrote connToA (encode typedHi) ∈ trace nodeB ∧
  Stdout (bold "[you]" +:+ " hi") ∈ trace nodeA ∧
  originations (ID typedHi) scriptA = 1 ∧
  broadcasts (ID typedHi) (trace nodeA) = 2 ∧
  ¬ broadcasts (ID typedHi) (trace nodeA) ≤ 1.
Proof.
  split_and!.
  - exact nodeA_run.
  - exact nodeB_run.
  - apply (bool_decide_unpack _). by vm_compute.
  - apply (bool_decide_unpack _). by vm_compute.
  - apply (bool_decide_unpack _). by vm_compute.
  - by vm_compute.
  - by vm_compute.
  - assert (broadcasts (ID typedHi) (trace nodeA) = 2) as -> by (by vm_compute).
    lia.
Qed.

(* ===================================================================== *)
(** ** Errors of accept and of single connections *)
(* ===================================================================== *)

(** C8.  An error of [Accept] ends the process, in both programs.  In
    [main] the error is logged and the loop goes on to start
    [serveIncoming] on the nil connection it got; the first [Decode] of
    that goroutine dereferences nil, so whatever the state and whatever
    would have come next, the run ends in a panic and nothing more is
    served.  The earlier listener, [startListener], ends the process by
    [log.Fatal].  An error on a single connection (connect, encode,
    decode) ends the goroutine of that connection only, which releases
    what it holds: the process goes on and all other goroutines are as
    before. *)
Theorem accept_error_ends_process (n : Node) (err : string) :
  (∃ n', acceptLoop (AcceptErr err) n = Ok ((), n') ∧
     trace n' = trace n ++ [Logged ("< Error on accept: " +:+ err)] ∧
     servers n' = servers n ++ [Serving None zeroSweetNothing] ∧
     ∀ d, serveIncoming (Serving None zeroSweetNothing) d n'
          = Panic "invalid memory address or nil pointer dereference") ∧
  step (Accepted (AcceptErr err)) n
  = Panic "invalid memory address or nil pointer dereference" ∧
  (∀ ins, run (Accepted (AcceptErr err) :: ins) n
          = Panic "invalid memory address or nil pointer dereference") ∧
  (∀ d sent, Listener.startListener (AcceptErr err) d sent
             = Fatal ("Error on accept: " +:+ err)) ∧
  (∀ k addr ch, dialers n !! k = Some (DialConnecting addr ch) →
     ∃ n', step (Dial k ConnectErr) n = Ok ((), n') ∧
       dialers n' = <[k := DialReturned]> (dialers n) ∧
       servers n' = servers n ∧
       peers n' = Peers.Remove addr (peers n)) ∧
  (∀ k addr ch c s e, dialers n !! k = Some (DialEncoding addr ch c s) →
     ∃ n', step (Dial k (EncodeErr e)) n = Ok ((), n') ∧
       dialers n' = <[k := DialReturned]> (dialers n) ∧
       servers n' = servers n ∧
       peers n' = Peers.Remove addr (peers n) ∧
       Closed c ∈ trace n') ∧
  (∀ k c whisper, servers n !! k = Some (Serving (Some c) whisper) →
     ∃ n', step (Wire k DecodeError) n = Ok ((), n') ∧
       servers n' = <[k := ServeReturned]> (servers n) ∧
       dialers n' = dialers n ∧
       peers n' = peers n ∧
       Closed c ∈ trace n').
Proof.
  split_and!.
  - eexists. split; [reflexivity|]. simpl. split_and!; try done.
  - done.
  - done.
  - done.
  - intros k addr ch Hk. eexists. split.
    + simpl. rewrite Hk. unfold bind. rewrite dial_connect_failed. reflexivity.
    + done.
  - intros k addr ch c s e Hk. eexists. split.
    + simpl. rewrite Hk. unfold bind. rewrite dial_encode_failed. reflexivity.
    + simpl. split_and!; try done. set_solver.
  - intros k c whisper Hk. eexists. split.
    + simpl. rewrite Hk. reflexivity.
    + simpl. split_and!; try done. set_solver.
Qed.

Lemma accept_error_ends_process_witness :
  ∃ n',
    step (Dial 1 (EncodeErr "broken pipe")) sampleNode = Ok ((), n') ∧
    dialers n' !! 0 = Some (DialRanging "10.0.0.2:9000" 0 connToB) ∧
    dialers n' !! 1 = Some DialReturned ∧
    Peers.channels (peers n') !! "10.0.0.2:9000" = Some 0 ∧
    run [Accepted (AcceptErr "accept tcp: too many open files");
         Wire 0 (Decoded (encode m1))] sampleNode
    = Panic "invalid memory address or nil pointer dereference".
Proof.
  destruct (accept_error_ends_process sampleNode
              "accept tcp: too many open files")
    as (_ & _ & Hrun & _ & _ & Henc & _).
  destruct (Henc 1 "10.0.0.3:9000" 1 connToC
              (mkSweetNothing "m0" "10.0.0.9:9000" "earlier" noon)
              "broken pipe" eq_refl)
    as (n' & Hstep & Hd & _ & Hp & _).
  exists n'. rewrite Hd, Hp.
  split_and!; [exact Hstep|reflexivity..|exact (Hrun _)].
Defined.

(* ===================================================================== *)
(** * Further properties *)
(* ===================================================================== *)

(** ** The registry *)

(** X1. After a dialer gave its entry back, a new [Add] for the same
    address succeeds and gets a channel of its own: it differs from the
    one handed out before, which no registry entry names any more. *)
Theorem Add_after_Remove_is_fresh (addr : string) (p : Peers.t) :
  Peers.allocated p →
  Peers.channels p !! addr = None →
  ∃ c1 c2 p1 p3,
    Peers.Add addr p = (Some c1, p1) ∧
    Peers.Add addr (Peers.Remove addr p1) = (Some c2, p3) ∧
    c1 ≠ c2 ∧
    Peers.channels p3 !! addr = Some c2 ∧
    (c1 ∉ Peers.List p3) ∧
    Peers.heap p3 !! c1 = Some makeChan ∧
    ∀ a, a ≠ addr → Peers.channels p3 !! a = Peers.channels p !! a.
Proof.
  intros Hal Hout.
  rewrite (Add_absent addr p Hout).
  eexists _, _, _, _. split; [reflexivity|].
  unfold Peers.Remove at 1. cbn [Peers.channels Peers.heap].
  rewrite delete_insert_id by done.
  assert (Hout' : Peers.channels (Peers.mk (Peers.channels p)
                     (Peers.heap p ++ [makeChan])) !! addr = None) by done.
  rewrite (Add_absent addr _ Hout'). cbn [Peers.channels Peers.heap].
  split; [reflexivity|]. rewrite length_app. simpl.
  split_and!.
  - lia.
  - apply lookup_insert_eq.
  - unfold Peers.List. cbn [Peers.channels].
    intros ([a c] & Hc & Hin)%list_elem_of_fmap. simpl in Hc. subst c.
    apply elem_of_map_to_list in Hin.
    apply lookup_insert_Some in Hin as [[_ Heq]|[_ Hin]]; [lia|].
    apply Hal in Hin. lia.
  - rewrite lookup_app_l by (rewrite length_app; simpl; lia).
    by rewrite lookup_app_r, Nat.sub_diag.
  - intros a Hne. by rewrite lookup_insert_ne.
Qed.

Lemma Add_after_Remove_is_fresh_witness :
  ∃ p1 p3,
    Peers.Add "10.0.0.2:9000" (Peers.mk ∅ []) = (Some 0, p1) ∧
    Peers.Add "10.0.0.2:9000" (Peers.Remove "10.0.0.2:9000" p1) = (Some 1, p3).
Proof.
  destruct (Add_after_Remove_is_fresh "10.0.0.2:9000" (Peers.mk ∅ []))
    as (c1 & c2 & p1 & p3 & H1 & H3 & _).
  - intros a c. simpl. by rewrite lookup_empty.
  - apply lookup_empty.
  - exists p1, p3.
    assert (c1 = 0) as ->.
    { rewrite Add_absent in H1 by apply lookup_empty. by injection H1 as <- _. }
    split; [exact H1|].
    assert (c2 = 1) as ->; [|exact H3].
    rewrite Add_absent in H1 by apply lookup_empty. injection H1 as <-.
    unfold Peers.Remove in H3. cbn [Peers.channels Peers.heap] in H3.
    rewrite delete_insert_id in H3 by apply lookup_empty.
    rewrite Add_absent in H3 by apply lookup_empty. by injection H3 as <- _.
Defined.

(** X2. [List] returns one handle per registry entry and nothing else:
    as many handles as entries, and a handle is listed exactly when some
    address is registered with it; the empty registry lists nothing. *)
Theorem List_one_handle_per_entry (p : Peers.t) :
  length (Peers.List p) = size (Peers.channels p) ∧
  (∀ ch, ch ∈ Peers.List p ↔ ∃ addr, Peers.channels p !! addr = Some ch) ∧
  (Peers.channels p = ∅ → Peers.List p = []).
Proof.
  unfold Peers.List. split_and!.
  - by rewrite length_fmap, length_map_to_list.
  - intros ch. rewrite list_elem_of_fmap. split.
    + intros ([a c] & -> & Hin). exists a. by apply elem_of_map_to_list.
    + intros [a Ha]. exists (a, ch). split; [done|].
      by apply elem_of_map_to_list.
  - intros ->. by rewrite map_to_list_empty.
Qed.

Lemma List_one_handle_per_entry_witness :
  Peers.List (Peers.mk ∅ [makeChan]) = [].
Proof.
  apply (List_one_handle_per_entry (Peers.mk ∅ [makeChan])). reflexivity.
Defined.

(** X3. [Remove] of an address that is not registered changes nothing,
    a second [Remove] changes nothing more, the other entries and the
    channels stay, and [Remove] after a successful [Add] gives back the
    registry map as it was. *)
Theorem Remove_is_idempotent (addr : string) (p : Peers.t) :
  (Peers.channels p !! addr = None → Peers.Remove addr p = p) ∧
  Peers.Remove addr (Peers.Remove addr p) = Peers.Remove addr p ∧
  Peers.channels (Peers.Remove addr p) !! addr = None ∧
  (∀ a, a ≠ addr →
     Peers.channels (Peers.Remove addr p) !! a = Peers.channels p !! a) ∧
  Peers.heap (Peers.Remove addr p) = Peers.heap p ∧
  (Peers.channels p !! addr = None →
     Peers.channels (Peers.Remove addr (Peers.Add addr p).2) = Peers.channels p).
Proof.
  unfold Peers.Remove. split_and!; simpl.
  - intros Hout. rewrite delete_id by done. by destruct p.
  - by rewrite delete_delete_eq.
  - apply lookup_delete_eq.
  - intros a Hne. by apply lookup_delete_ne.
  - done.
  - intros Hout. rewrite (Add_absent addr p Hout). simpl.
    by rewrite delete_insert_id.
Qed.

Lemma Remove_is_idempotent_witness :
  Peers.Remove "nobody" (Peers.mk {["10.0.0.2:9000" := 0]} [makeChan])
  = Peers.mk {["10.0.0.2:9000" := 0]} [makeChan].
Proof.
  apply (Remove_is_idempotent "nobody"). simpl. by rewrite lookup_singleton_ne.
Defined.

(** ** The local address and start-up *)

(** X4. [IP] resolves once: when it has answered with a non-empty
    address, the receiver it leaves behind answers the same from then on,
    whatever the machine would say, and is left as it is. *)
Theorem IP_is_cached (h h' : Host) (i i' : LocalInfo.t) (a : string) :
  LocalInfo.IP h i = Ok (a, i') →
  a ≠ "" →
  LocalInfo.IP h' i' = Ok (a, i') ∧
  LocalInfo.ListenPort i' = LocalInfo.ListenPort i.
Proof.
  unfold LocalInfo.IP. intros Hip Ha.
  assert (Hlen : String.length a ≠ 0) by (by destruct a).
  case_decide as Hi.
  - destruct (osHostname h); [|done].
    destruct (netLookupHost h) as [[|first rest]|]; try done.
    injection Hip as <- <-. simpl. by rewrite decide_False.
  - injection Hip as <- <-. by rewrite decide_False.
Qed.

Lemma IP_is_cached_witness :
  LocalInfo.IP hostB (LocalInfo.mk "10.0.0.1" "9000")
  = Ok ("10.0.0.1", LocalInfo.mk "10.0.0.1" "9000").
Proof.
  apply (IP_is_cached hostA hostB (LocalInfo.mk "" "9000")
           (LocalInfo.mk "10.0.0.1" "9000") "10.0.0.1");
    [reflexivity | discriminate].
Defined.

(** X5. [Addr] has a value receiver, so what [IP] stores is lost: in every
    state the process reaches the stored ip is still empty and the port is
    the one of the flag, so that every [Addr] resolves the host name again
    and answers the machine's first address, a colon and the port. *)
Theorem local_ip_is_never_stored (h : Host) (n : Node) :
  reachable h n →
  LocalInfo.ip (localInfo n) = "" ∧
  host n = h ∧
  ∃ first rest name,
    osHostname h = Some name ∧
    netLookupHost h = Some (first :: rest) ∧
    LocalInfo.Addr (host n) (localInfo n)
    = Ok (first +:+ ":" +:+ LocalInfo.ListenPort (localInfo n)).
Proof.
  intros (port & listen & n0 & ins & Hmain & Hrun).
  destruct (main_sound h port listen n0 Hmain) as (Hinv & Hh & _).
  destruct (run_sound ins n0 n Hinv Hrun) as (_ & Hh' & Hl' & _).
  rewrite Hh', Hl', Hh.
  revert Hmain. unfold main. case_decide; [done|].
  destruct listen as [laddr|]; [|done].
  unfold_M. simpl. unfold LocalInfo.Addr, LocalInfo.IP. simpl.
  destruct (osHostname h) as [name|]; [|done].
  destruct (netLookupHost h) as [[|first rest]|]; try done.
  intros [= <-]. simpl. split_and!; try done. by exists first, rest, name.
Qed.

Lemma local_ip_is_never_stored_witness :
  LocalInfo.ip (localInfo nodeA) = "" ∧
  LocalInfo.Addr (host nodeA) (localInfo nodeA) = Ok "10.0.0.1:9000".
Proof.
  destruct (local_ip_is_never_stored hostA nodeA
              (bootAndRun_reachable _ _ _ nodeA_run)) as (Hip & _).
  split; [exact Hip | exact nodeA_addr].
Defined.

(** ** Message ids and the wire *)

(** X7. [uniqueId] prints the fields of the clock without separators, so
    different instants can give the same id: the 12th of January and the
    2nd of November do, at the same time of day of the same year. *)
Theorem uniqueId_collides (y h mi s ns : N) :
  mkTime y 1 12 h mi s ns ≠ mkTime y 11 2 h mi s ns ∧
  uniqueId (mkTime y 1 12 h mi s ns) = uniqueId (mkTime y 11 2 h mi s ns) ∧
  ¬ Inj (=) (=) uniqueId.
Proof.
  assert (Hne : mkTime y 1 12 h mi s ns ≠ mkTime y 11 2 h mi s ns) by (by intros [=]).
  assert (Heq : uniqueId (mkTime y 1 12 h mi s ns)
                = uniqueId (mkTime y 11 2 h mi s ns)).
  { unfold uniqueId. cbn [Year Month Day Hour Minute Second Nanosecond].
    (* "1" "12" and "11" "2" concatenate to the same digits *)
    change (pretty (1%N)) with "1". change (pretty (12%N)) with "12".
    change (pretty (11%N)) with "11". change (pretty (2%N)) with "2".
    reflexivity. }
  split_and!; [done..|]. intros Hinj. by apply Hne, Hinj.
Qed.

(** The serve loop has recorded the id of every record it went on with. *)
Lemma serveIncoming_records c whisper o n spc n1 :
  serveIncoming (Serving (Some c) whisper) (Decoded o) n = Ok (spc, n1) →
  spc = Serving (Some c) (decodeInto o whisper) ∧
  seenIds n1 !! ID (decodeInto o whisper) = Some true.
Proof.
  intros Hrun.
  destruct (SeenId (ID (decodeInto o whisper)) (seenIds n)).1 eqn:Hs.
  - rewrite serveIncoming_seen in Hrun by done.
    injection Hrun as <- <-. split; [done|]. apply lookup_insert_eq.
  - destruct (LocalInfo.Addr (host n) (localInfo n)) as [me| |] eqn:Hme.
    + pose proof (serveIncoming_new c whisper o n me Hs Hme) as Hnew.
      cbv zeta in Hnew. rewrite Hnew in Hrun.
      injection Hrun as <- <-. split; [done|]. apply lookup_insert_eq.
    + revert Hrun. unfold serveIncoming. unfold_M.
      unfold SeenId in *. simpl in *. rewrite Hs. simpl. by rewrite Hme.
    + revert Hrun. unfold serveIncoming. unfold_M.
      unfold SeenId in *. simpl in *. rewrite Hs. simpl. by rewrite Hme.
Qed.

(** X8. The dedup is by id alone.  A record that carries the id of a
    record handled before is dropped without a look at its sender, body
    or time: nothing is printed, broadcast or dialed, and the registry
    is as before. *)
Theorem dedup_is_by_id_only
    (c : Conn) (whisper : SweetNothing) (o1 o2 : WireObj) (id : string)
    (n n1 : Node) (spc : ServePC) :
  wID o1 = Some id → wID o2 = Some id →
  serveIncoming (Serving (Some c) whisper) (Decoded o1) n = Ok (spc, n1) →
  ∃ n2,
    serveIncoming spc (Decoded o2) n1
    = Ok (Serving (Some c) (decodeInto o2 (decodeInto o1 whisper)), n2) ∧
    trace n2 = trace n1 ∧ dialers n2 = dialers n1 ∧ peers n2 = peers n1 ∧
    seenIds n2 = seenIds n1.
Proof.
  intros H1 H2 Hrun.
  destruct (serveIncoming_records c whisper o1 n spc n1 Hrun) as [-> Hseen].
  assert (Hid1 : ID (decodeInto o1 whisper) = id)
    by (unfold decodeInto; simpl; by rewrite H1).
  assert (Hid2 : ID (decodeInto o2 (decodeInto o1 whisper)) = id)
    by (unfold decodeInto; simpl; by rewrite H2).
  rewrite Hid1 in Hseen.
  eexists. split.
  - apply serveIncoming_seen. rewrite Hid2. unfold SeenId; simpl.
    by rewrite Hseen.
  - unfold set_seenIds. cbn [trace dialers peers seenIds].
    split_and!; try done. rewrite Hid2. by apply insert_id.
Qed.

Lemma colliding_first_new :
  (SeenId (ID (decodeInto
                 (encode (mkSweetNothing (uniqueId (mkTime 2014 1 12 8 0 0 0))
                            "10.0.0.2:9000" "first" noon))
                 zeroSweetNothing))
     (seenIds sampleNode)).1 = false.
Proof. vm_compute. reflexivity. Qed.

Lemma colliding_ids :
  wID (encode (mkSweetNothing (uniqueId (mkTime 2014 11 2 8 0 0 0))
                 "10.0.0.2:9000" "second" noon))
  = Some (uniqueId (mkTime 2014 1 12 8 0 0 0)).
Proof. vm_compute. reflexivity. Qed.

Lemma dedup_is_by_id_only_witness :
  let first := mkSweetNothing (uniqueId (mkTime 2014 1 12 8 0 0 0))
                 "10.0.0.2:9000" "first" noon in
  let second := mkSweetNothing (uniqueId (mkTime 2014 11 2 8 0 0 0))
                  "10.0.0.2:9000" "second" noon in
  ∃ n1 n2,
    serveIncoming (Serving (Some connFromB) zeroSweetNothing)
      (Decoded (encode first)) sampleNode
    = Ok (Serving (Some connFromB) first, n1) ∧
    serveIncoming (Serving (Some connFromB) first) (Decoded (encode second)) n1
    = Ok (Serving (Some connFromB) second, n2) ∧
    trace n2 = trace n1.
Proof.
  intros first second.
  pose proof (serveIncoming_new connFromB zeroSweetNothing (encode first)
                sampleNode "10.0.0.1:9000" colliding_first_new eq_refl) as Hrun.
  cbv zeta in Hrun.
  destruct (dedup_is_by_id_only connFromB zeroSweetNothing (encode first)
              (encode second) (uniqueId (mkTime 2014 1 12 8 0 0 0))
              sampleNode _ _ eq_refl colliding_ids Hrun)
    as (n2 & Hrun2 & Htr & _).
  eexists _, n2. split_and!; [exact Hrun | exact Hrun2 | exact Htr].
Defined.

(** ** Nicknames, commands and typed lines *)

Lemma effects_app t1 t2 : effects (t1 ++ t2) = effects t1 ++ effects t2.
Proof. unfold effects. by rewrite filter_app. Qed.

Lemma effects_Stdout t line : effects (t ++ [Stdout line]) = effects t.
Proof. rewrite effects_app. unfold effects at 2. simpl. by rewrite app_nil_r. Qed.

(** X10. After [setNick addr name] the label of [addr] is [name] in
    brackets, unless [addr] is the local address, which is always shown
    as [you]; an address without nickname is shown as itself; the labels
    of the other addresses and the protocol state are as before. *)
Theorem nick_after_setNick (addr name me : string) (n : Node) :
  LocalInfo.Addr (host n) (localInfo n) = Ok me →
  ∃ n1,
    setNick addr name n = Ok ((), n1) ∧
    nick addr n1
    = Ok ("[" +:+ (if decide (addr = me) then "you" else name) +:+ "]", n1) ∧
    nick me n1 = Ok ("[you]", n1) ∧
    (∀ a, a ≠ me → nicknames n1 !! a = None → nick a n1 = Ok ("[" +:+ a +:+ "]", n1)) ∧
    (∀ other, other ≠ addr →
       nicknames n1 !! other = nicknames n !! other) ∧
    protocol n1 = protocol n ∧
    trace n1 = trace n ++ [Stdout (statusLine (addr +:+ " nicknamed " +:+ name))].
Proof.
  intros Hme. eexists. split; [reflexivity|].
  set (n1 := set_trace _ _).
  assert (Hme1 : LocalInfo.Addr (host n1) (localInfo n1) = Ok me) by done.
  split_and!.
  - rewrite (nick_Ok addr me n1 Hme1). do 3 f_equal.
    case_decide; [done|]. simpl. by rewrite lookup_insert_eq.
  - rewrite (nick_Ok me me n1 Hme1). by rewrite decide_True.
  - intros a Hne Hnone. rewrite (nick_Ok a me n1 Hme1).
    rewrite decide_False by done. by rewrite Hnone.
  - intros other Hne. simpl. by rewrite lookup_insert_ne.
  - done.
  - done.
Qed.

Lemma nick_after_setNick_witness :
  ∃ n1,
    setNick "10.0.0.2:9000" "bob" sampleNode = Ok ((), n1) ∧
    nick "10.0.0.2:9000" n1 = Ok ("[bob]", n1).
Proof.
  destruct (nick_after_setNick "10.0.0.2:9000" "bob" "10.0.0.1:9000" sampleNode
              eq_refl) as (n1 & Hset & Hnick & _).
  exists n1. split; [exact Hset|]. rewrite Hnick. reflexivity.
Defined.

Lemma Split_cons s : ∃ f fs, Split s = f :: fs.
Proof. unfold Split. destruct (splitFields s) as [f fs]. eauto. Qed.

(** X11. A command line of ASCII bytes makes the process panic exactly
    when it is [/dial] with nothing after it (in any case, with any
    blanks around): [parts[1]] is then out of range.  No such command is
    fatal, and the index [parts[0]] is never out of range. *)
Theorem handleCommand_panics_iff (c : string) (n : Node) :
  asciiOnly c = true →
  ((∃ msg, handleCommand c n = Panic msg) ↔
   Split (ToLower (TrimSpace c)) = ["/dial"]) ∧
  (∀ msg, handleCommand c n ≠ Fatal msg) ∧
  is_Some (Split (ToLower (TrimSpace c)) !! 0).
Proof.
  intros _. unfold handleCommand.
  destruct (Split_cons (ToLower (TrimSpace c))) as (p0 & rest & ->). simpl.
  destruct (decide (p0 = "/dial")) as [->|Hd].
  - destruct rest as [|p1 rest]; simpl.
    + split_and!; [split; eauto | done | eauto].
    + split_and!; [split; [by intros [? ?] | done] | done | eauto].
  - destruct (decide (p0 = "/setnick")) as [->|Hs].
    + split_and!; [split; [|by intros [= ->]] | | eauto];
        destruct rest as [|p1 [|p2 [|? ?]]]; try done; by intros [? ?].
    + split_and!; [split; [by intros [? ?] | by intros [= ->]] | done | eauto].
Qed.

Lemma bare_dial_ascii : asciiOnly "  /DIAL " = true.
Proof. reflexivity. Qed.

Lemma bare_dial_parts : Split (ToLower (TrimSpace "  /DIAL ")) = ["/dial"].
Proof. vm_compute. reflexivity. Qed.

Lemma handleCommand_panics_iff_witness :
  ∃ msg, handleCommand "  /DIAL " sampleNode = Panic msg.
Proof.
  exact (proj2 (proj1 (handleCommand_panics_iff "  /DIAL " sampleNode
                         bare_dial_ascii))
           bare_dial_parts).
Defined.

(** X12. A command of ASCII bytes never sends anything and never touches
    the registry, the cache or the serving goroutines: it prints at most
    a status line and either starts one dial, sets one nickname or does
    nothing. *)
Theorem handleCommand_is_local (c : string) (n n' : Node) :
  asciiOnly c = true →
  handleCommand c n = Ok ((), n') →
  peers n' = peers n ∧ seenIds n' = seenIds n ∧ servers n' = servers n ∧
  host n' = host n ∧ localInfo n' = localInfo n ∧
  effects (trace n') = effects (trace n) ∧
  ((dialers n' = dialers n ∧ nicknames n' = nicknames n ∧ trace n' = trace n) ∨
   (∃ addr, dialers n' = dialers n ++ [DialEntry addr] ∧
            nicknames n' = nicknames n ∧ trace n' = trace n ∧
            Split (ToLower (TrimSpace c)) !! 0 = Some "/dial" ∧
            Split (ToLower (TrimSpace c)) !! 1 = Some addr) ∨
   (∃ addr name, dialers n' = dialers n ∧
                 nicknames n' = <[addr := name]> (nicknames n) ∧
                 Split (ToLower (TrimSpace c)) = ["/setnick"; addr; name])).
Proof.
  intros _. unfold handleCommand.
  destruct (Split_cons (ToLower (TrimSpace c))) as (p0 & rest & ->). simpl.
  destruct (decide (p0 = "/dial")) as [->|Hd].
  - destruct rest as [|p1 rest]; simpl; [done|].
    intros [= <-]. split_and!; try done. right; left. by exists p1.
  - destruct (decide (p0 = "/setnick")) as [->|Hs].
    + destruct rest as [|p1 [|p2 [|? ?]]];
        try (intros [= <-]; split_and!; try done; by left).
      unfold_M. intros [= <-]. simpl. split_and!; try done.
      * apply effects_Stdout.
      * right; right. by exists p1, p2.
    + intros [= <-]. split_and!; try done. by left.
Qed.

Lemma setnick_command_run :
  ∃ n', handleCommand "/SetNick 10.0.0.2:9000 Bob" sampleNode = Ok ((), n') ∧
        nicknames n' !! "10.0.0.2:9000" = Some "bob".
Proof. eexists. split; vm_compute; reflexivity. Qed.

Lemma setnick_command_ascii : asciiOnly "/SetNick 10.0.0.2:9000 Bob" = true.
Proof. reflexivity. Qed.

Lemma handleCommand_is_local_witness :
  ∃ n',
    handleCommand "/SetNick 10.0.0.2:9000 Bob" sampleNode = Ok ((), n') ∧
    nicknames n' !! "10.0.0.2:9000" = Some "bob" ∧
    peers n' = peers sampleNode.
Proof.
  destruct setnick_command_run as (n' & Hrun & Hnick).
  destruct (handleCommand_is_local _ _ _ setnick_command_ascii Hrun)
    as (Hp & _).
  exists n'. split_and!; [exact Hrun | exact Hnick | exact Hp].
Defined.

(** X13. A typed line that is not empty and is not a command is broadcast
    once, as a message with the id made from the clock, the local address
    as sender and the line as body.  It is not printed, it is not put in
    the dedup cache, and nothing else of the process changes.  An empty
    line does nothing at all. *)
Theorem typed_line_is_broadcast
    (text : string) (idNow stamp : Time) (n : Node) (me : string) :
  LocalInfo.Addr (host n) (localInfo n) = Ok me →
  String.length text ≠ 0 →
  String.prefix "/" text = false →
  startInputScanner "" idNow stamp n = Ok ((), n) ∧
  ∃ n' evs,
    startInputScanner text idNow stamp n = Ok ((), n') ∧
    trace n'
    = trace n ++ Broadcast (mkSweetNothing (uniqueId idNow) me text stamp) :: evs ∧
    Forall2 (λ ch e,
               e = Sent ch (mkSweetNothing (uniqueId idNow) me text stamp) ∨
               e = Dropped ch (mkSweetNothing (uniqueId idNow) me text stamp))
      (Peers.List (peers n)) evs ∧
    seenIds n' = seenIds n ∧
    Peers.channels (peers n') = Peers.channels (peers n) ∧
    dialers n' = dialers n ∧ servers n' = servers n ∧
    nicknames n' = nicknames n.
Proof.
  intros Hme Hlen Hpre. split; [reflexivity|].
  unfold startInputScanner. rewrite decide_False by done. rewrite Hpre.
  unfold bind, localAddr. rewrite Hme. rewrite broadcast_Ok.
  eexists _, _. split; [reflexivity|]. simpl.
  split_and!; try done. apply broadcastTo_shape.
Qed.

Lemma nodeParked_run : bootAndRun hostA scriptParked = Ok nodeParked.
Proof. vm_compute. reflexivity. Qed.

Lemma nodeParked_addr :
  LocalInfo.Addr (host nodeParked) (localInfo nodeParked) = Ok "10.0.0.1:9000".
Proof. vm_compute. reflexivity. Qed.

Lemma nodeParked_List : Peers.List (peers nodeParked) = [0].
Proof. vm_compute. reflexivity. Qed.

Lemma nodeParked_seenIds : seenIds nodeParked = ∅.
Proof. vm_compute. reflexivity. Qed.

Lemma typed_line_is_broadcast_witness :
  ∃ n' e,
    startInputScanner "hi" noon noon nodeParked = Ok ((), n') ∧
    trace n' = trace nodeParked ++ [Broadcast typedHi; e] ∧
    (e = Sent 0 typedHi ∨ e = Dropped 0 typedHi) ∧
    seenIds n' = ∅.
Proof.
  destruct (typed_line_is_broadcast "hi" noon noon nodeParked "10.0.0.1:9000"
              nodeParked_addr)
    as (_ & n' & evs & Hrun & Htr & Hevs & Hseen & _);
    [discriminate | reflexivity |].
  rewrite nodeParked_List in Hevs.
  apply Forall2_cons_inv_l in Hevs as (e & rest & He & Hrest & ->).
  apply Forall2_nil_inv_l in Hrest as ->.
  exists n', e. split_and!; [exact Hrun | exact Htr | exact He |].
  rewrite Hseen. exact nodeParked_seenIds.
Defined.

(** ** The cache, the registry and the dialers over a whole run *)

Lemma startInputScanner_seenIds text idNow stamp n n' :
  startInputScanner text idNow stamp n = Ok ((), n') → seenIds n' = seenIds n.
Proof.
  unfold startInputScanner. case_decide; [by intros [= <-]|].
  destruct (String.prefix "/" text).
  - unfold handleCommand.
    destruct (Split_cons (ToLower (TrimSpace text))) as (p0 & rest & ->). simpl.
    case_decide.
    { destruct rest as [|p1 rest]; simpl; [done|]. by intros [= <-]. }
    case_decide; [|by intros [= <-]].
    destruct rest as [|p1 [|p2 [|? ?]]]; by intros [= <-].
  - unfold bind, localAddr.
    destruct (LocalInfo.Addr (host n) (localInfo n)) as [me| |]; [|done..].
    rewrite broadcast_Ok. by intros [= <-].
Qed.

Lemma serveIncoming_seenIds spc d n spc' n' :
  serveIncoming spc d n = Ok (spc', n') →
  seenIds n' = seenIds n ∨ ∃ id, seenIds n' = <[id := true]> (seenIds n).
Proof.
  destruct spc as [[c|] whisper|]; [| |by intros [= <- <-]; left].
  2: { unfold serveIncoming, panic. by destruct d. }
  destruct d as [o|].
  - intros Hrun.
    destruct (SeenId (ID (decodeInto o whisper)) (seenIds n)).1 eqn:Hs.
    + rewrite serveIncoming_seen in Hrun by done.
      injection Hrun as <- <-. right. by eexists.
    + destruct (LocalInfo.Addr (host n) (localInfo n)) as [me| |] eqn:Hme.
      * pose proof (serveIncoming_new c whisper o n me Hs Hme) as Hnew.
        cbv zeta in Hnew. rewrite Hnew in Hrun.
        injection Hrun as <- <-. right. by eexists.
      * revert Hrun. unfold serveIncoming. unfold_M.
        unfold SeenId in *. simpl in *. rewrite Hs. simpl. by rewrite Hme.
      * revert Hrun. unfold serveIncoming. unfold_M.
        unfold SeenId in *. simpl in *. rewrite Hs. simpl. by rewrite Hme.
  - unfold serveIncoming. unfold_M. intros [= <- <-]. by left.
Qed.

Lemma step_seenIds i n n' :
  invariant n → step i n = Ok ((), n') →
  ∀ id, seenIds n !! id = Some true → seenIds n' !! id = Some true.
Proof.
  intros Hinv Hs id Hid.
  destruct i as [text idNow stamp|r|k d|k e]; simpl in Hs.
  - by rewrite (startInputScanner_seenIds _ _ _ _ _ Hs).
  - destruct r; revert Hs; unfold_M; by intros [= <-].
  - destruct (servers n !! k) as [spc|]; [|by injection Hs as <-].
    revert Hs. unfold bind.
    destruct (serveIncoming spc d n) as [[spc' n1]| |] eqn:Hserve; [|done..].
    intros [= <-]. simpl.
    destruct (serveIncoming_seenIds _ _ _ _ _ Hserve) as [->|[x ->]]; [done|].
    destruct (decide (x = id)) as [->|Hne];
      [by rewrite lookup_insert_eq | by rewrite lookup_insert_ne].
  - destruct (dialers n !! k) as [pc|] eqn:Hk; [|by injection Hs as <-].
    revert Hs. unfold bind.
    destruct (dial pc e n) as [[pc' n1]| |] eqn:Hdial; [|done..].
    intros [= <-]. simpl.
    destruct (dial_sound k pc e n pc' n1 Hinv Hk Hdial) as (_ & _ & _ & -> & _).
    done.
Qed.

(** X14. The dedup cache only grows: an id that is in the cache stays in
    it through everything the process does afterwards, so a record with
    that id is dropped for the rest of the process's life. *)
Theorem seen_ids_are_never_forgotten
    (h : Host) (n n' : Node) (more : list Input) (id : string) :
  reachable h n →
  run more n = Ok n' →
  is_Some (seenIds n !! id) →
  seenIds n' !! id = Some true ∧
  (SeenId id (seenIds n')).1 = true ∧
  ∀ c whisper o, ID (decodeInto o whisper) = id →
    ∃ n2, serveIncoming (Serving (Some c) whisper) (Decoded o) n'
          = Ok (Serving (Some c) (decodeInto o whisper), n2) ∧
          trace n2 = trace n'.
Proof.
  intros Hr Hrun [b Hb].
  destruct (reachable_invariant h n Hr) as [Hinv _].
  assert (Hid : seenIds n !! id = Some true).
  { rewrite Hb. f_equal. by apply (inv_marked _ Hinv id). }
  clear Hb b Hr.
  assert (Hid' : seenIds n' !! id = Some true).
  { revert n Hinv Hrun Hid. induction more as [|i more IH]; intros n Hinv Hrun Hid.
    - by injection Hrun as <-.
    - simpl in Hrun. destruct (step i n) as [[[] n1]| |] eqn:Hs; [|done..].
      destruct (step_sound i n n1 Hinv Hs) as (Hinv1 & _).
      apply (IH n1 Hinv1 Hrun). by apply (step_seenIds i n n1). }
  assert (Hans : (SeenId id (seenIds n')).1 = true)
    by (unfold SeenId; simpl; by rewrite Hid').
  split_and!; [done..|].
  intros c whisper o Ho. eexists. split.
  - apply serveIncoming_seen. by rewrite Ho.
  - done.
Qed.

Lemma nodeA_seen : is_Some (seenIds nodeA !! uniqueId noon).
Proof. exists true. vm_compute. reflexivity. Qed.

Lemma nodeA_more_run :
  ∃ n', run [Accepted (AcceptOk connFromB); Typed "more" noon noon;
             Wire 0 DecodeError] nodeA = Ok n'.
Proof. eexists. vm_compute. reflexivity. Qed.

Lemma seen_ids_are_never_forgotten_witness :
  ∃ n',
    run [Accepted (AcceptOk connFromB); Typed "more" noon noon;
         Wire 0 DecodeError] nodeA = Ok n' ∧
    seenIds n' !! uniqueId noon = Some true.
Proof.
  destruct nodeA_more_run as [n' Hrun].
  destruct (seen_ids_are_never_forgotten hostA nodeA n' _ (uniqueId noon)
              (bootAndRun_reachable _ _ _ nodeA_run) Hrun nodeA_seen)
    as (Hseen & _).
  exists n'. split; [exact Hrun | exact Hseen].
Defined.

(** X15. Every registry entry has its dialing goroutine and every dialing
    goroutine that holds a handle has its entry: the registry never keeps
    an entry of a goroutine that returned.  No address has two owners and
    no channel is registered under two addresses. *)
Theorem registry_matches_dialers (h : Host) (n : Node) :
  reachable h n →
  (∀ addr ch,
     Peers.channels (peers n) !! addr = Some ch ↔
     ∃ k pc, dialers n !! k = Some pc ∧ owns pc = Some (addr, ch)) ∧
  (∀ k k' pc pc' addr ch ch',
     dialers n !! k = Some pc → dialers n !! k' = Some pc' →
     owns pc = Some (addr, ch) → owns pc' = Some (addr, ch') → k = k') ∧
  (∀ a a' ch,
     Peers.channels (peers n) !! a = Some ch →
     Peers.channels (peers n) !! a' = Some ch → a = a') ∧
  NoDup (Peers.List (peers n)) ∧
  Peers.allocated (peers n).
Proof.
  intros Hr. destruct (reachable_invariant h n Hr) as [[HI _ _] _].
  split_and!.
  - intros addr ch. split; [apply (inv_reg _ _ HI)|].
    intros (k & pc & Hk & Ho). by destruct (inv_own _ _ HI k pc addr ch Hk Ho).
  - intros k k' pc pc' addr ch ch'. by apply (owner_unique (peers n) (dialers n)).
  - intros a a' ch. by eapply registry_injective.
  - by eapply List_NoDup.
  - intros a c Hc. destruct (inv_reg _ _ HI a c Hc) as (k & pc & Hk & Ho).
    by eapply owned_lt.
Qed.

Lemma registry_matches_dialers_witness :
  ∃ k pc, dialers nodeBusy !! k = Some pc ∧
          owns pc = Some ("10.0.0.2:9000", 0).
Proof.
  destruct (registry_matches_dialers hostA nodeBusy
              (bootAndRun_reachable _ _ _ nodeBusy_run)) as (Hreg & _).
  apply Hreg. exact nodeBusy_registered.
Defined.

(** ** From broadcast to the wire *)

(** X16. A message broadcast while the dialer of a peer is parked in its
    receive is sent to it, and the dialer's next two steps (it takes the
    value, [Encode] succeeds) write exactly that message, with all its
    fields, on the connection to the peer; the dialer is then parked
    again and still owns its registry entry. *)
Theorem parked_peer_gets_the_message
    (h : Host) (n : Node) (k : nat) (addr : string) (ch : nat) (c : Conn)
    (q : Chan) (w : SweetNothing) :
  reachable h n →
  dialers n !! k = Some (DialRanging addr ch c) →
  Peers.heap (peers n) !! ch = Some q →
  recv q = Parked →
  ∃ n1 evs n3,
    broadcast w n = Ok ((), n1) ∧
    trace n1 = trace n ++ Broadcast w :: evs ∧
    Sent ch w ∈ evs ∧
    run [Dial k Received; Dial k EncodeOk] n1 = Ok n3 ∧
    trace n3 = trace n1 ++ [Wrote c (encode w)] ∧
    dialers n3 !! k = Some (DialRanging addr ch c) ∧
    Peers.heap (peers n3) !! ch = Some (mkChan 0 [] Parked) ∧
    Peers.channels (peers n3) = Peers.channels (peers n).
Proof.
  intros Hr Hk Hq Hp.
  destruct (reachable_invariant h n Hr) as [[HI _ _] _].
  destruct (inv_own _ _ HI k _ addr ch Hk eq_refl) as (Hc & _).
  destruct (inv_chan _ _ HI ch q Hq) as [Hcap Hbuf].
  pose proof (List_NoDup _ _ HI) as Hnd.
  pose proof (List_elem _ _ _ Hc) as Hin.
  assert (Hlt : k < length (dialers n)) by by eapply lookup_lt_Some.
  assert (Hch : ch < length (Peers.heap (peers n))) by by eapply lookup_lt_Some.
  assert (Hsend : Peers.heap (peers n) !! ch ≫= trySend w
                  = Some (mkChan 0 [] (Handed w))).
  { rewrite Hq. simpl. unfold trySend. by rewrite Hp, Hcap, Hbuf. }
  set (sends := broadcastTo (Peers.List (peers n)) w (Peers.heap (peers n))).
  assert (Hh1 : sends.1 !! ch = Some (mkChan 0 [] (Handed w))).
  { unfold sends. rewrite (broadcastTo_lookup _ _ _ _ Hnd).
    rewrite decide_True by done. unfold afterAttempt. by rewrite Hsend. }
  assert (Hlen1 : length sends.1 = length (Peers.heap (peers n)))
    by apply broadcastTo_length.
  eexists _, _, _. split; [apply broadcast_Ok|]. fold sends.
  cbn [trace]. split; [reflexivity|]. split.
  { unfold sends. rewrite (broadcastTo_events _ _ _ Hnd).
    apply list_elem_of_fmap. exists ch. split; [|done].
    unfold attempt. by rewrite Hsend. }
  split.
  { cbn [run step dialers]. rewrite Hk. unfold bind at 1.
    unfold dial at 1. unfold bind at 1. unfold takeHanded.
    cbn [peers Peers.heap]. rewrite Hh1. cbn [recv ret update].
    cbn [dialers set_dialers set_peers].
    rewrite list_lookup_insert_eq by done.
    unfold bind at 1. unfold dial at 1. unfold emit, update, bind.
    rewrite (rangeNext_parks _ addr ch c (mkChan 0 [] Idle)).
    - reflexivity.
    - simpl. by rewrite list_lookup_insert_eq by lia.
    - done. }
  simpl. split_and!.
  - done.
  - rewrite list_lookup_insert_eq; [done|]. by rewrite length_insert.
  - rewrite list_lookup_insert_eq; [done|]. rewrite length_insert. lia.
  - done.
Qed.

Lemma nodeParked_dialer :
  dialers nodeParked !! 0 = Some (DialRanging "10.0.0.2:9000" 0 connToB).
Proof. vm_compute. reflexivity. Qed.

Lemma nodeParked_chan :
  Peers.heap (peers nodeParked) !! 0 = Some (mkChan 0 [] Parked).
Proof. vm_compute. reflexivity. Qed.

Lemma parked_peer_gets_the_message_witness :
  ∃ n1 n3,
    broadcast m1 nodeParked = Ok ((), n1) ∧
    run [Dial 0 Received; Dial 0 EncodeOk] n1 = Ok n3 ∧
    trace n3 = trace n1 ++ [Wrote connToB (encode m1)].
Proof.
  destruct (parked_peer_gets_the_message hostA nodeParked 0 "10.0.0.2:9000" 0
              connToB (mkChan 0 [] Parked) m1
              (bootAndRun_reachable _ _ _ nodeParked_run)
              nodeParked_dialer nodeParked_chan eq_refl)
    as (n1 & evs & n3 & Hb & _ & _ & Hrun & Htr & _).
  exists n1, n3. split_and!; [exact Hb | exact Hrun | exact Htr].
Defined.

(** X17. A [dial] for an address that another goroutine has registered
    does nothing: the goroutine returns at once, no connection is opened,
    nothing is printed, and the registry and the owner are as before. *)
Theorem duplicate_dial_is_noop (n : Node) (k : nat) (addr me : string) :
  LocalInfo.Addr (host n) (localInfo n) = Ok me →
  dialers n !! k = Some (DialEntry addr) →
  is_Some (Peers.channels (peers n) !! addr) →
  step (Dial k Scheduled) n = Ok ((), set_dialers (<[k := DialReturned]>) n) ∧
  ∀ n', step (Dial k Scheduled) n = Ok ((), n') →
    peers n' = peers n ∧ trace n' = trace n ∧
    ∀ k', k' ≠ k → dialers n' !! k' = dialers n !! k'.
Proof.
  intros Hme Hk Hin.
  assert (Hstep : step (Dial k Scheduled) n
                  = Ok ((), set_dialers (<[k := DialReturned]>) n)).
  { simpl. rewrite Hk. unfold bind.
    destruct (decide (addr = me)) as [->|Hne].
    - by rewrite (dial_self n me Hme).
    - by rewrite (dial_taken n me addr Hme Hne Hin). }
  split; [done|]. intros n'. rewrite Hstep. intros [= <-]. simpl.
  split_and!; try done. intros k' Hne. by rewrite list_lookup_insert_ne.
Qed.

Lemma nodeParked_with_second_dial :
  ∃ n, run [Typed "/dial 10.0.0.2:9000" noon noon] nodeParked = Ok n ∧
       LocalInfo.Addr (host n) (localInfo n) = Ok "10.0.0.1:9000" ∧
       dialers n !! 1 = Some (DialEntry "10.0.0.2:9000") ∧
       Peers.channels (peers n) !! "10.0.0.2:9000" = Some 0.
Proof. eexists. split_and!; vm_compute; reflexivity. Qed.

Lemma duplicate_dial_is_noop_witness :
  ∃ n n',
    run [Typed "/dial 10.0.0.2:9000" noon noon] nodeParked = Ok n ∧
    step (Dial 1 Scheduled) n = Ok ((), n') ∧
    peers n' = peers n ∧ trace n' = trace n.
Proof.
  destruct nodeParked_with_second_dial as (n & Hrun & Hme & Hk & Hin).
  destruct (duplicate_dial_is_noop n 1 "10.0.0.2:9000" "10.0.0.1:9000" Hme Hk)
    as (Hstep & Hsame); [by rewrite Hin|].
  destruct (Hsame _ Hstep) as (Hp & Htr & _).
  eexists n, _. split_and!; [exact Hrun | exact Hstep | exact Hp | exact Htr].
Defined.

(** X18. When a dialing goroutine has returned, its address can be dialed
    again: the next [dial] for it gets a handle, on a channel that is not
    the one the goroutine had, and goes on to connect. *)
Theorem address_can_be_redialed
    (h : Host) (n n1 : Node) (k : nat) (pc : DialPC) (e : DialIn)
    (addr : string) (ch : nat) :
  reachable h n →
  dialers n !! k = Some pc →
  owns pc = Some (addr, ch) →
  dial pc e n = Ok (DialReturned, n1) →
  ∃ n2 ch',
    dial (DialEntry addr) Scheduled n1 = Ok (DialConnecting addr ch', n2) ∧
    ch' ≠ ch ∧
    Peers.channels (peers n2) !! addr = Some ch' ∧
    Peers.heap (peers n2) !! ch' = Some makeChan ∧
    Dialed addr ∈ trace n2.
Proof.
  intros Hr Hk Ho Hd.
  destruct (reachable_invariant h n Hr) as [[HI _ (me & Hme & Hl)] _].
  destruct (inv_own _ _ HI k pc addr ch Hk Ho) as (Hc & _).
  pose proof (owned_lt _ _ _ _ _ _ HI Hk Ho) as Hlt.
  assert (Hne : addr ≠ me) by (intros ->; congruence).
  assert (Hn1 : host n1 = host n ∧ localInfo n1 = localInfo n ∧
                peers n1 = Peers.Remove addr (peers n)).
  { destruct (dial_returns_when pc e n n1 addr ch Ho Hd)
      as [[-> ->]|[(c & -> & ->)|(c & s & err & -> & ->)]].
    - rewrite dial_connect_failed in Hd. by injection Hd as <-.
    - rewrite dial_range_ended in Hd. by injection Hd as <-.
    - rewrite dial_encode_failed in Hd. by injection Hd as <-. }
  destruct Hn1 as (Hh1 & Hl1 & Hp1).
  assert (Hme1 : LocalInfo.Addr (host n1) (localInfo n1) = Ok me)
    by (by rewrite Hh1, Hl1).
  assert (Hout : Peers.channels (peers n1) !! addr = None)
    by (rewrite Hp1; apply lookup_delete_eq).
  eexists _, _. split; [by apply (dial_fresh n1 me addr)|].
  rewrite Hp1. cbn [peers Peers.channels Peers.heap Peers.Remove trace].
  split_and!.
  - lia.
  - apply lookup_insert_eq.
  - by rewrite lookup_app_r, Nat.sub_diag.
  - apply elem_of_app. right. by apply list_elem_of_singleton.
Qed.

Lemma nodeBusy_reset :
  ∃ n1, dial (DialEncoding "10.0.0.2:9000" 0 connToB typedHi)
          (EncodeErr "connection reset") nodeBusy = Ok (DialReturned, n1).
Proof. eexists. reflexivity. Qed.

Lemma address_can_be_redialed_witness :
  ∃ n1 n2 ch',
    dial (DialEncoding "10.0.0.2:9000" 0 connToB typedHi)
      (EncodeErr "connection reset") nodeBusy = Ok (DialReturned, n1) ∧
    dial (DialEntry "10.0.0.2:9000") Scheduled n1
    = Ok (DialConnecting "10.0.0.2:9000" ch', n2) ∧
    ch' ≠ 0.
Proof.
  destruct nodeBusy_reset as [n1 Hd].
  destruct (address_can_be_redialed hostA nodeBusy n1 0 _ _ "10.0.0.2:9000" 0
              (bootAndRun_reachable _ _ _ nodeBusy_run) nodeBusy_dialer
              eq_refl Hd)
    as (n2 & ch' & Hre & Hne & _).
  exists n1, n2, ch'. split_and!; [exact Hd | exact Hre | exact Hne].
Defined.

(** ** Nicknames stay out of the protocol *)

Section oblivious.

Lemma sameProtocol_fields n1 n2 :
  sameProtocol n1 n2 ↔
  host n1 = host n2 ∧ localInfo n1 = localInfo n2 ∧ peers n1 = peers n2 ∧
  seenIds n1 = seenIds n2 ∧ dialers n1 = dialers n2 ∧
  servers n1 = servers n2 ∧ effects (trace n1) = effects (trace n2).
Proof.
  unfold sameProtocol, protocol. split.
  - intros [[= ? ? ? ? ? ?] ?]. by split_and!.
  - intros (-> & -> & -> & -> & -> & -> & ?). done.
Qed.

Lemma related_ret {A} (a : A) : related eq (ret a) (ret a).
Proof. intros n1 n2 Hs. by split. Qed.

Lemma related_bind {A A' B B'} (V : A → A' → Prop) (W : B → B' → Prop)
    (m1 : M A) (m2 : M A') (k1 : A → M B) (k2 : A' → M B') :
  related V m1 m2 →
  (∀ a a', V a a' → related W (k1 a) (k2 a')) →
  related W (bind m1 k1) (bind m2 k2).
Proof.
  intros Hm Hk n1 n2 Hs. unfold bind. specialize (Hm n1 n2 Hs).
  destruct (m1 n1) as [[a x]| |], (m2 n2) as [[a' x']| |]; simpl in *; try done.
  destruct Hm as [HV Hx]. by apply Hk.
Qed.

Lemma related_update (f g : Node → Node) :
  (∀ n1 n2, sameProtocol n1 n2 → sameProtocol (f n1) (g n2)) →
  related eq (update f) (update g).
Proof. intros Hf n1 n2 Hs. split; [done|]. by apply Hf. Qed.

Lemma related_emit e : related eq (emit e) (emit e).
Proof.
  apply related_update. intros n1 n2. rewrite !sameProtocol_fields. simpl.
  intros (? & ? & ? & ? & ? & ? & Ht). split_and!; try done.
  by rewrite !effects_app, Ht.
Qed.

Lemma related_print l1 l2 : related eq (emit (Stdout l1)) (emit (Stdout l2)).
Proof.
  apply related_update. intros n1 n2. rewrite !sameProtocol_fields. simpl.
  intros (? & ? & ? & ? & ? & ? & Ht). split_and!; try done.
  by rewrite !effects_Stdout.
Qed.

Lemma related_statusLn s : related eq (statusLn s) (statusLn s).
Proof. apply related_emit. Qed.

Lemma related_goDial addr : related eq (goDial addr) (goDial addr).
Proof.
  apply related_update. intros n1 n2. rewrite !sameProtocol_fields. simpl.
  intros (? & ? & ? & ? & -> & ? & ?). by split_and!.
Qed.

Lemma related_goServeIncoming con :
  related eq (goServeIncoming con) (goServeIncoming con).
Proof.
  apply related_update. intros n1 n2. rewrite !sameProtocol_fields. simpl.
  intros (? & ? & ? & ? & ? & -> & ?). by split_and!.
Qed.

Lemma related_set_servers f :
  related eq (update (set_servers f)) (update (set_servers f)).
Proof.
  apply related_update. intros n1 n2. rewrite !sameProtocol_fields. simpl.
  intros (? & ? & ? & ? & ? & -> & ?). by split_and!.
Qed.

Lemma related_set_dialers f :
  related eq (update (set_dialers f)) (update (set_dialers f)).
Proof.
  apply related_update. intros n1 n2. rewrite !sameProtocol_fields. simpl.
  intros (? & ? & ? & ? & -> & ? & ?). by split_and!.
Qed.

Lemma related_peersRemove addr : related eq (peersRemove addr) (peersRemove addr).
Proof.
  apply related_update. intros n1 n2. rewrite !sameProtocol_fields. simpl.
  intros (? & ? & -> & ? & ? & ? & ?). by split_and!.
Qed.

Lemma related_setNick addr name : related eq (setNick addr name) (setNick addr name).
Proof.
  unfold setNick. eapply related_bind; [|intros ? ? _; apply related_statusLn].
  apply related_update. intros n1 n2. rewrite !sameProtocol_fields. simpl.
  intros (? & ? & ? & ? & ? & ? & ?). by split_and!.
Qed.

Lemma related_localAddr : related eq localAddr localAddr.
Proof.
  intros n1 n2 Hs. pose proof Hs as Hs'. apply sameProtocol_fields in Hs'.
  destruct Hs' as (Hh & Hl & _). unfold localAddr. rewrite Hh, Hl.
  by destruct (LocalInfo.Addr (host n2) (localInfo n2)).
Qed.

Lemma related_peersAdd addr : related eq (peersAdd addr) (peersAdd addr).
Proof.
  intros n1 n2. rewrite sameProtocol_fields.
  intros (? & ? & Hp & ? & ? & ? & ?). unfold peersAdd. rewrite Hp.
  destruct (Peers.Add addr (peers n2)) as [ch p]. split; [done|].
  apply sameProtocol_fields. by split_and!.
Qed.

Lemma related_seenId id : related eq (seenId id) (seenId id).
Proof.
  intros n1 n2. rewrite sameProtocol_fields.
  intros (? & ? & ? & Hsn & ? & ? & ?). unfold seenId. rewrite Hsn.
  destruct (SeenId id (seenIds n2)) as [ok m]. split; [done|].
  apply sameProtocol_fields. by split_and!.
Qed.

Lemma related_broadcast w : related eq (broadcast w) (broadcast w).
Proof.
  intros n1 n2. rewrite sameProtocol_fields.
  intros (? & ? & Hp & ? & ? & ? & Ht). rewrite !broadcast_Ok, Hp.
  split; [done|]. apply sameProtocol_fields. simpl. split_and!; try done.
  by rewrite !effects_app, Ht.
Qed.

Lemma related_rangeNext addr ch c :
  related eq (rangeNext addr ch c) (rangeNext addr ch c).
Proof.
  intros n1 n2 Hs. pose proof Hs as Hs'. apply sameProtocol_fields in Hs'.
  destruct Hs' as (? & ? & Hp & ? & ? & ? & ?). unfold rangeNext. rewrite Hp.
  destruct (Peers.heap (peers n2) !! ch) as [q|]; [|by split].
  destruct (buf q); (split; [done|]); apply sameProtocol_fields; simpl;
    rewrite ?Hp; by split_and!.
Qed.

Lemma related_takeHanded ch : related eq (takeHanded ch) (takeHanded ch).
Proof.
  intros n1 n2 Hs. pose proof Hs as Hs'. apply sameProtocol_fields in Hs'.
  destruct Hs' as (? & ? & Hp & ? & ? & ? & ?). unfold takeHanded. rewrite Hp.
  destruct (Peers.heap (peers n2) !! ch) as [q|]; [|by split].
  destruct (recv q); (split; [done|]); try done.
  apply sameProtocol_fields; simpl; rewrite ?Hp; by split_and!.
Qed.

(** The only reader of the nicknames: its answer may differ. *)
Lemma related_nick addr : related (λ _ _, True) (nick addr) (nick addr).
Proof.
  unfold nick. eapply related_bind; [apply related_localAddr|].
  intros me ? <- n1 n2 Hs. by split.
Qed.

Lemma related_dialDeferred addr c :
  related eq (dialDeferred addr c) (dialDeferred addr c).
Proof.
  unfold dialDeferred.
  eapply related_bind; [apply related_emit|]. intros ? ? _.
  eapply related_bind; [apply related_statusLn|]. intros ? ? _.
  apply related_peersRemove.
Qed.

Lemma related_dial pc e : related eq (dial pc e) (dial pc e).
Proof.
  destruct pc as [addr|addr ch|addr ch c|addr ch c s|], e;
    try apply related_ret; unfold dial.
  - eapply related_bind; [apply related_localAddr|]. intros me ? <-.
    case_decide; [apply related_ret|].
    eapply related_bind; [apply related_peersAdd|]. intros [ch|] ? <-;
      [|apply related_ret].
    eapply related_bind; [apply related_statusLn|]. intros ? ? _.
    eapply related_bind; [apply related_emit|]. intros ? ? _.
    apply related_ret.
  - eapply related_bind; [apply related_statusLn|]. intros ? ? _.
    apply related_rangeNext.
  - eapply related_bind; [apply related_emit|]. intros ? ? _.
    eapply related_bind; [apply related_peersRemove|]. intros ? ? _.
    apply related_ret.
  - eapply related_bind; [apply related_takeHanded|]. intros [s|] ? <-;
      apply related_ret.
  - eapply related_bind; [apply related_dialDeferred|]. intros ? ? _.
    apply related_ret.
  - eapply related_bind; [apply related_emit|]. intros ? ? _.
    apply related_rangeNext.
  - eapply related_bind; [apply related_emit|]. intros ? ? _.
    eapply related_bind; [apply related_dialDeferred|]. intros ? ? _.
    apply related_ret.
Qed.

Lemma related_serveIncoming spc d :
  related eq (serveIncoming spc d) (serveIncoming spc d).
Proof.
  destruct spc as [[c|] whisper|]; [| |apply related_ret].
  2: { intros n1 n2 _. unfold serveIncoming, panic. by destruct d. }
  destruct d as [o|]; unfold serveIncoming.
  - cbv zeta. eapply related_bind; [apply related_seenId|].
    intros [|] ? <-; [apply related_ret|].
    eapply related_bind; [apply related_nick|]. intros l1 l2 _.
    eapply related_bind; [apply related_print|]. intros ? ? _.
    eapply related_bind; [apply related_broadcast|]. intros ? ? _.
    eapply related_bind; [apply related_goDial|]. intros ? ? _.
    apply related_ret.
  - eapply related_bind; [apply related_emit|]. intros ? ? _.
    eapply related_bind; [apply related_statusLn|]. intros ? ? _.
    apply related_ret.
Qed.

Lemma related_handleCommand c : related eq (handleCommand c) (handleCommand c).
Proof.
  unfold handleCommand.
  destruct (Split (ToLower (TrimSpace c)) !! 0) as [p0|];
    [|by intros n1 n2 _].
  case_decide.
  { destruct (Split (ToLower (TrimSpace c)) !! 1) as [p1|];
      [apply related_goDial | by intros n1 n2 _]. }
  case_decide; [|apply related_ret].
  destruct (Split (ToLower (TrimSpace c))) as [|? [|p1 [|p2 [|? ?]]]];
    try apply related_ret.
  apply related_setNick.
Qed.

Lemma related_step i : related eq (step i) (step i).
Proof.
  destruct i as [text idNow stamp|r|k d|k e]; simpl.
  - unfold startInputScanner. case_decide; [apply related_ret|].
    destruct (String.prefix "/" text); [apply related_handleCommand|].
    eapply related_bind; [apply related_localAddr|]. intros me ? <-.
    apply related_broadcast.
  - destruct r as [con|err]; unfold acceptLoop, firstDecode.
    + eapply related_bind; [apply related_goServeIncoming|]. intros ? ? _.
      apply related_ret.
    + eapply related_bind; [|by intros ? ? _ n1 n2 _].
      eapply related_bind; [apply related_emit|]. intros ? ? _.
      apply related_goServeIncoming.
  - intros n1 n2 Hs. pose proof Hs as Hs'. apply sameProtocol_fields in Hs'.
    destruct Hs' as (_ & _ & _ & _ & _ & Hsv & _). rewrite Hsv.
    destruct (servers n2 !! k) as [spc|]; [|by split].
    revert n1 n2 Hs Hsv. fold (related (@eq unit)
      (bind (serveIncoming spc d) (λ pc1, update (set_servers (<[k := pc1]>))))
      (bind (serveIncoming spc d) (λ pc1, update (set_servers (<[k := pc1]>))))).
    intros n1 n2 Hs _. revert n1 n2 Hs.
    eapply related_bind; [apply related_serveIncoming|]. intros ? ? <-.
    apply related_set_servers.
  - intros n1 n2 Hs. pose proof Hs as Hs'. apply sameProtocol_fields in Hs'.
    destruct Hs' as (_ & _ & _ & _ & Hd & _ & _). rewrite Hd.
    destruct (dialers n2 !! k) as [pc|]; [|by split].
    revert n1 n2 Hs Hd. intros n1 n2 Hs _. revert n1 n2 Hs.
    eapply related_bind; [apply related_dial|]. intros ? ? <-.
    apply related_set_dialers.
Qed.

Lemma related_run ins : ∀ n1 n2,
  sameProtocol n1 n2 → sameRun (run ins n1) (run ins n2).
Proof.
  induction ins as [|i ins IH]; intros n1 n2 Hs; simpl; [done|].
  pose proof (related_step i n1 n2 Hs) as Hstep.
  destruct (step i n1) as [[[] x1]| |], (step i n2) as [[[] x2]| |];
    simpl in Hstep; try done.
  destruct Hstep as [_ Hx]. by apply IH.
Qed.

End oblivious.

(** X19. Nicknames are for display only.  Two processes that differ only
    in their nicknames (and in what they printed) go through the same
    protocol states on the same inputs: the same registry, cache,
    dialers and serving goroutines, the same sends, drops, dials, writes
    and log lines, and they end the same way. *)
Theorem nicknames_stay_out_of_the_protocol
    (ins : list Input) (n1 n2 : Node) :
  protocol n1 = protocol n2 →
  effects (trace n1) = effects (trace n2) →
  match run ins n1, run ins n2 with
  | Ok n1', Ok n2' =>
      protocol n1' = protocol n2' ∧ effects (trace n1') = effects (trace n2')
  | Fatal m1, Fatal m2 => m1 = m2
  | Panic m1, Panic m2 => m1 = m2
  | _, _ => False
  end.
Proof.
  intros Hp Ht. apply (related_run ins n1 n2). by split.
Qed.

Lemma nicknamed_run :
  ∃ n1' n2',
    run [Wire 0 (Decoded (encode m1))] sampleNode = Ok n1' ∧
    run [Wire 0 (Decoded (encode m1))]
      (set_nicknames (<["10.0.0.1:9000" := "alice"]>) sampleNode) = Ok n2'.
Proof. eexists _, _. split; vm_compute; reflexivity. Qed.

Lemma nicknamed_same :
  sameProtocol sampleNode
    (set_nicknames (<["10.0.0.1:9000" := "alice"]>) sampleNode).
Proof. split; reflexivity. Qed.

Lemma nicknames_stay_out_of_the_protocol_witness :
  ∃ n1' n2',
    run [Wire 0 (Decoded (encode m1))] sampleNode = Ok n1' ∧
    run [Wire 0 (Decoded (encode m1))]
      (set_nicknames (<["10.0.0.1:9000" := "alice"]>) sampleNode) = Ok n2' ∧
    protocol n1' = protocol n2'.
Proof.
  destruct nicknamed_run as (n1' & n2' & H1 & H2).
  pose proof (nicknames_stay_out_of_the_protocol
                [Wire 0 (Decoded (encode m1))] sampleNode
                (set_nicknames (<["10.0.0.1:9000" := "alice"]>) sampleNode)
                (proj1 nicknamed_same) (proj2 nicknamed_same)) as Hrel.
  rewrite H1, H2 in Hrel.
  exists n1', n2'. split_and!; [exact H1 | exact H2 | exact (proj1 Hrel)].
Defined.

(** ** The earlier program *)

Lemma decodeInto_encode (s w : SweetNothing) : decodeInto (encode s) w = s.
Proof. by destruct s. Qed.

Lemma sendMessage_outcome (reg : list string)
    (dialErr : string → option string) (s : SweetNothing) :
  match Earlier.sendMessage reg dialErr s with
  | Ok evs =>
      Forall (λ addr, dialErr addr = None) reg ∧
      evs = flat_map (λ addr, [Dialed addr; Wrote (mkConn addr) (encode s);
                               Closed (mkConn addr)]) reg
  | Fatal msg =>
      ∃ addr e, addr ∈ reg ∧ dialErr addr = Some e ∧
                msg = "sendMessage error: " +:+ e
  | Panic _ => False
  end.
Proof.
  induction reg as [|addr rest IH]; simpl; [by split|].
  unfold Earlier.sendMessageTo. destruct (dialErr addr) as [e|] eqn:He.
  - exists addr, e. split_and!; [left | done | done].
  - destruct (Earlier.sendMessage rest dialErr s) as [evs|msg|msg]; [| |done].
    + destruct IH as [Hall ->]. split; [by constructor | done].
    + destruct IH as (a & e & Hin & Ha & ->). exists a, e.
      split_and!; [by right | done | done].
Qed.

(** X20. The earlier program registers one recipient, its own address, and
    never another.  So a typed line that is not empty is dialed to the
    process's own listener only, carrying the local address and the line,
    and the listener hands [main] the very record that was sent. *)
Theorem earlier_program_talks_to_itself
    (h : Host) (port : string) (i : LocalInfo.t) (reg : list string)
    (dialErr : string → option string)
    (text : string) (idNow stamp : Time) (c : Conn) (sent : list SweetNothing) :
  Earlier.main h port = Ok (i, reg) →
  0 < String.length text →
  ∃ me,
    reg = [me] ∧
    LocalInfo.Addr h i = Ok me ∧
    (dialErr me = None →
     Earlier.startScanner h i reg dialErr text idNow stamp
     = Ok [Dialed me;
           Wrote (mkConn me)
             (encode (mkSweetNothing (uniqueId idNow) me text stamp));
           Closed (mkConn me)]) ∧
    Listener.startListener (AcceptOk c)
      (Decoded (encode (mkSweetNothing (uniqueId idNow) me text stamp))) sent
    = Ok (sent ++ [mkSweetNothing (uniqueId idNow) me text stamp]).
Proof.
  unfold Earlier.main. intros Hmain Hlen. case_decide; [done|].
  destruct (LocalInfo.Addr h (LocalInfo.mk "" port)) as [me| |] eqn:Hme;
    try done.
  injection Hmain as <- <-. exists me. split_and!; [done | done | |].
  - intros Hd. unfold Earlier.startScanner. rewrite decide_True by done.
    rewrite Hme. simpl. unfold Earlier.sendMessageTo. by rewrite Hd.
  - unfold Listener.startListener. by rewrite decodeInto_encode.
Qed.

Lemma earlier_main_hostA :
  Earlier.main hostA "9000" = Ok (LocalInfo.mk "" "9000", ["10.0.0.1:9000"]).
Proof. vm_compute. reflexivity. Qed.

Lemma earlier_hi_length : 0 < String.length "hi".
Proof. vm_compute. lia. Qed.

Lemma earlier_program_talks_to_itself_witness :
  ∃ me,
    [ "10.0.0.1:9000" ] = [me] ∧
    Listener.startListener (AcceptOk connFromA)
      (Decoded (encode (mkSweetNothing (uniqueId noon) me "hi" noon))) []
    = Ok ([] ++ [mkSweetNothing (uniqueId noon) me "hi" noon]).
Proof.
  destruct (earlier_program_talks_to_itself hostA "9000"
              (LocalInfo.mk "" "9000") ["10.0.0.1:9000"] (λ _, None)
              "hi" noon noon connFromA [] earlier_main_hostA earlier_hi_length)
    as (me & Hreg & _ & _ & Hl).
  exists me. split; [exact Hreg | exact Hl].
Defined.

(** X21. In the earlier program a recipient that cannot be dialed ends the
    process: sending fails fatally exactly when [net.Dial] fails for some
    registered address, and otherwise every registered address gets one
    connection that carries the record and is closed.  It never panics. *)
Theorem earlier_dial_failure_is_fatal
    (reg : list string) (dialErr : string → option string) (s : SweetNothing) :
  (∀ msg, Earlier.sendMessage reg dialErr s ≠ Panic msg) ∧
  ((∃ msg, Earlier.sendMessage reg dialErr s = Fatal msg) ↔
   ∃ addr, addr ∈ reg ∧ is_Some (dialErr addr)) ∧
  ((∀ addr, addr ∈ reg → dialErr addr = None) →
   Earlier.sendMessage reg dialErr s
   = Ok (flat_map (λ addr, [Dialed addr; Wrote (mkConn addr) (encode s);
                            Closed (mkConn addr)]) reg)).
Proof.
  pose proof (sendMessage_outcome reg dialErr s) as Hout.
  destruct (Earlier.sendMessage reg dialErr s) as [evs|msg|msg]; [| |done].
  - destruct Hout as [Hall ->]. split_and!; [done | | done].
    split; [by intros [? ?]|]. intros (addr & Hin & [e He]).
    rewrite Forall_forall in Hall. specialize (Hall addr Hin). congruence.
  - destruct Hout as (addr & e & Hin & He & ->). split_and!; [done | |].
    + split; [|by eexists]. intros _. exists addr. split; [done | by eexists].
    + intros Hall. specialize (Hall addr Hin). congruence.
Qed.

Lemma earlier_two_recipients :
  ∀ addr, addr ∈ ["10.0.0.1:9000"; "10.0.0.2:9000"] →
          (λ _ : string, @None string) addr = None.
Proof. done. Qed.

Lemma earlier_dial_failure_is_fatal_witness :
  Earlier.sendMessage ["10.0.0.1:9000"; "10.0.0.2:9000"] (λ _, None) m1
  = Ok (flat_map (λ addr, [Dialed addr; Wrote (mkConn addr) (encode m1);
                           Closed (mkConn addr)])
          ["10.0.0.1:9000"; "10.0.0.2:9000"]).
Proof.
  exact (proj2 (proj2 (earlier_dial_failure_is_fatal
                         ["10.0.0.1:9000"; "10.0.0.2:9000"] (λ _, None) m1))
           earlier_two_recipients).
Defined.
